(** * BrainModels: neuron and synapse update rules

    A shallow embedding of the per-tick update functions of

      - brainmodels/synapses/exponential.py  (ExpCUBA, ExpCOBA)
      - brainmodels/synapses/NMDA.py         (NMDA)
      - bpmodels/synapses/GABAa.py           (get_GABAa1, get_GABAa2)
      - bpmodels/neurons/AdQuaIF_model.py    (get_AdQuaIF)
      - brainmodels/neurons/FHN.py           (FHN)

    Python floats are idealised as the real numbers [R]: every statement
    below is about exact real arithmetic, not about IEEE rounding.
    One-dimensional arrays are lists, two-dimensional arrays lists of rows.
    Python exceptions are the [Raise] branch of [result]; a call that raises
    returns no state.  An update method takes the groups it reads and
    returns the objects it mutates.  Delays are counted in steps of [dt].
    What belongs to the framework and not to the repository (the delay
    object, the integrator decorators) is either modelled from the design
    document, and marked so, or left as a variable of a section. *)

From Stdlib Require Import String.
From Stdlib Require Import Reals Lra Lia List Arith Bool PeanoNat.
Import ListNotations.

Open Scope R_scope.

(** ** Python results and exceptions *)

Module Py.

Inductive exn : Type :=
| IndexError
| ValueError
| TypeError
| AttributeError
| UnsupportedError
| NotImplementedError
| AssertionError
| DimensionError.

Inductive result (A : Type) : Type :=
| Ok (a : A)
| Raise (e : exn).

Arguments Ok {A} a.
Arguments Raise {A} e.

Definition bind {A B : Type} (m : result A) (k : A -> result B) : result B :=
  match m with
  | Ok a => k a
  | Raise e => Raise e
  end.

End Py.

Import Py.

Declare Scope py_scope.
Delimit Scope py_scope with py.
Notation "x <- m ;; k" := (Py.bind m (fun x => k))
  (at level 100, m at next level, right associativity) : py_scope.
Notation "' p <- m ;; k" := (Py.bind m (fun p => k))
  (at level 100, p pattern, m at next level, right associativity) : py_scope.
Open Scope py_scope.

(** ** Arrays *)

Module Arr.

Section Generic.
Context {A : Type}.

(** [a[i]] *)
Definition getitem (a : list A) (i : nat) : result A :=
  match nth_error a i with
  | Some x => Ok x
  | None => Raise IndexError
  end.

(** the array [a] with cell [i] replaced; no bound check *)
Fixpoint upd (a : list A) (i : nat) (x : A) : list A :=
  match a, i with
  | [], _ => []
  | _ :: t, O => x :: t
  | h :: t, S j => h :: upd t j x
  end.

(** [a[i] = x] *)
Definition setitem (a : list A) (i : nat) (x : A) : result (list A) :=
  if (i <? length a)%nat then Ok (upd a i x) else Raise IndexError.

(** [a[start:stop]]: Python slicing clamps, it never raises *)
Definition slice (a : list A) (start stop : nat) : list A :=
  firstn (stop - start) (skipn start a).

(** a [for] loop over [l] whose body may raise *)
Fixpoint for_each {S : Type} (l : list A) (body : S -> A -> result S) (s : S)
  : result S :=
  match l with
  | [] => Ok s
  | x :: t => s' <- body s x ;; for_each t body s'
  end.

(** a comprehension over [l] whose body may raise *)
Fixpoint map_each {B : Type} (f : A -> result B) (l : list A)
  : result (list B) :=
  match l with
  | [] => Ok []
  | x :: t => y <- f x ;; r <- map_each f t ;; Ok (y :: r)
  end.

(** [a[:] = c] for a scalar [c] *)
Definition fill (a : list A) (c : A) : list A := map (fun _ => c) a.

(** [a[:] = b]: the right-hand side must broadcast to the shape of [a] *)
Definition assign_all (a b : list A) : result (list A) :=
  if (length b =? length a)%nat then Ok b
  else match b with
       | [y] => Ok (fill a y)
       | _ => Raise ValueError
       end.

Fixpoint zip_with {B C : Type} (f : A -> B -> C) (a : list A) (b : list B)
  : list C :=
  match a, b with
  | x :: a', y :: b' => f x y :: zip_with f a' b'
  | _, _ => []
  end.
End Generic.

(** [range(n)] *)
Definition range (n : nat) : list nat := seq 0 n.

(** [where(mask)[0]]: the indices of the set flags, ascending *)
Fixpoint where_from (i : nat) (mask : list bool) : list nat :=
  match mask with
  | [] => []
  | b :: t => if b then i :: where_from (S i) t else where_from (S i) t
  end.

Definition where_ (mask : list bool) : list nat := where_from 0 mask.

Definition vec := list R.

Definition zeros (n : nat) : vec := repeat 0 n.

(** elementwise binary operation of two one-dimensional arrays with numpy
    broadcasting: equal lengths, or one side of length 1 *)
Definition broadcast (f : R -> R -> R) (a b : vec) : result vec :=
  if (length a =? length b)%nat then Ok (zip_with f a b)
  else match a, b with
       | [x], _ => Ok (map (f x) b)
       | _, [y] => Ok (map (fun x => f x y) a)
       | _, _ => Raise ValueError
       end.

(** [a[:] += b] *)
Definition iadd_all (a b : vec) : result vec :=
  s <- broadcast Rplus a b ;; assign_all a s.

(** [a[:] -= b] *)
Definition isub_all (a b : vec) : result vec :=
  s <- broadcast Rminus a b ;; assign_all a s.

(** [a[i] += c] for a scalar [c] *)
Definition iadd_item (a : vec) (i : nat) (c : R) : result vec :=
  x <- getitem a i ;; setitem a i (x + c).

(** [a[ids] += c] with an index array: every right-hand side is read from
    the array as it was before the statement, so a repeated index is
    incremented once *)
Definition iadd_fancy (a : vec) (ids : list nat) (c : R) : result vec :=
  for_each ids (fun acc i => x <- getitem a i ;; setitem acc i (x + c)) a.

(** [sum(a[ids])] *)
Definition sum_fancy (a : vec) (ids : list nat) : result R :=
  for_each ids (fun acc i => x <- getitem a i ;; Ok (acc + x)) 0.

(** a Python bool used as a number *)
Definition of_bool (b : bool) : R := if b then 1 else 0.

(** comparisons of floats *)
Definition Rltb (x y : R) : bool := if Rlt_dec x y then true else false.
Definition Rleb (x y : R) : bool := if Rle_dec x y then true else false.
Definition Rgtb (x y : R) : bool := Rltb y x.
Definition Rgeb (x y : R) : bool := Rleb y x.

End Arr.

Import Arr.

(** ** The constant delay of a pre-synaptic variable *)

Module DelayLine.

Section DelayLine.
Context {A : Type}.
Variable zero : A.

(** Modelled from the spec: the object returned by
    [register_constant_delay] is the framework's; the repository only calls
    its [push] and [pull].  Following the spec's DelayLine, it owns a buffer
    of shape [D][N_pre] and a write cursor [head] in [0, D). *)
Record t : Type := Make {
  D : nat;
  N_pre : nat;
  buffer : list (list A);
  head : nat
}.

(** Modelled from the spec: the number of rows of the buffer, [D]. *)
Definition capacity (dl : t) : nat := D dl.

(** Modelled from the spec: construction for a delay of
    [steps = round(delay / dt)] steps and a source population of [n]
    neurons: [D = max(1, steps)] rows, explicitly zero, cursor at 0. *)
Definition new (steps n : nat) : t :=
  {| D := Nat.max 1 steps; N_pre := n;
     buffer := repeat (repeat zero n) (Nat.max 1 steps); head := 0 |}.

(** Modelled from the spec: [push] records the vector at the current cursor
    and advances the cursor modulo [D]; a vector of the wrong length is a
    [DimensionError]. *)
Definition push (dl : t) (v : list A) : result t :=
  if (length v =? N_pre dl)%nat
  then Ok {| D := D dl; N_pre := N_pre dl;
             buffer := upd (buffer dl) (head dl) v;
             head := (head dl + 1) mod D dl |}
  else Raise DimensionError.

(** Modelled from the spec: the previous cursor position, that is, the
    cursor before the increment of the latest [push]. *)
Definition last_written (dl : t) : nat :=
  (head dl + D dl - 1) mod D dl.

(** Modelled from the spec: [pull] uses the cyclic index [(head - D) mod D]
    with the cursor taken before the increment of the push, that is, it
    reads the previous cursor position. *)
Definition pull (dl : t) : list A :=
  nth ((last_written dl + D dl - D dl) mod D dl)
      (buffer dl) (repeat zero (N_pre dl)).

End DelayLine.

Arguments t A : clear implicits.

End DelayLine.

(** ** Numerical integrators of the framework *)

Module Integrators.

(** Modelled from the spec: the decorator [bp.integrate] of the framework,
    with its default method, is the forward Euler step
    [x <- x + dt * f x] of the right-hand side [f]. *)
Definition euler (f : R -> R) (dt x : R) : R := x + dt * f x.

(** Modelled from the spec: the decorator
    [bp.odeint(method='exponential_euler')] of the framework.  For a
    right-hand side that is linear in the state, [f x = A * x] with
    [A = f 1], the step is the exact flow [x <- x * exp (A * dt)]. *)
Definition exponential_euler (f : R -> R) (dt x : R) : R :=
  x * exp (f 1 * dt).

End Integrators.

(** ** Neuron groups as the synapses see them *)

Record NeuGroup : Type := {
  num : nat;
  spike : list bool;
  V : vec;
  input : vec
}.

Definition set_input (post : NeuGroup) (inp : vec) : NeuGroup :=
  {| num := num post; spike := spike post; V := V post; input := inp |}.

(** What [conn.requires] hands out. *)
Record Conn : Type := {
  conn_pre_slice : list (nat * nat);
  conn_pre_ids : list nat;
  conn_post_ids : list nat;
  conn_mat : list vec
}.

(** What a constructor receives as [pre] or [post]: a Python object, seen
    through the names of the attributes it has; [group] is its state when
    it is used as a neuron group. *)
Record PyObj : Type := {
  attrs : list string;
  group : NeuGroup
}.

(** [hasattr(o, name)] *)
Definition hasattr (o : PyObj) (name : string) : bool :=
  existsb (String.eqb name) (attrs o).

(** [assert cond, msg] *)
Definition assert_ (cond : bool) : result unit :=
  if cond then Ok tt else Raise AssertionError.

(** a neuron group of this model carries all of its attributes *)
Definition of_group (g : NeuGroup) : PyObj :=
  {| attrs := ["num"; "spike"; "V"; "input"]%string; group := g |}.

Coercion of_group : NeuGroup >-> PyObj.

(** ** brainmodels/synapses/exponential.py *)

Module Exponential.

(** The attributes that depend on [update_type]: the connectivity taken from
    [conn], [self.size] and the gating variable [self.g] of that shape. *)
Inductive Store : Type :=
| SparseStore (pre_slice : list (nat * nat)) (post_ids : list nat)
              (size : nat) (g : vec)
| DenseStore (conn_mat : list vec) (size : nat * nat) (g : list vec).

Record ExpCUBA : Type := {
  tau : R;
  delay : nat;
  g_max : R;
  store : Store;
  pre_spike : DelayLine.t bool
}.

Definition with_state (self : ExpCUBA) (st : Store) (dl : DelayLine.t bool)
  : ExpCUBA :=
  {| tau := tau self; delay := delay self; g_max := g_max self;
     store := st; pre_spike := dl |}.

(** [ExpCUBA.__init__]; [delay] is counted in steps of [dt].  The calls
    into the framework ([super().__init__], [conn.requires] and
    [register_constant_delay]) are taken to return: [conn] stands for a
    connector that hands out the structure asked for.  None of them
    receives [tau]. *)
Definition __init__ (pre post : PyObj) (conn : Conn)
    (g_max : R) (delay : nat) (tau : R) (update_type : string)
  : result ExpCUBA :=
  _ <- assert_ (hasattr pre "spike") ;;
  _ <- assert_ (hasattr post "input") ;;
  if String.eqb update_type "sparse" then
    Ok {| tau := tau; delay := delay; g_max := g_max;
          store := SparseStore (conn_pre_slice conn) (conn_post_ids conn)
                               (num (group post)) (zeros (num (group post)));
          pre_spike := DelayLine.new false delay (num (group pre)) |}
  else if String.eqb update_type "dense" then
    let rows := length (conn_mat conn) in
    let cols := length (nth 0 (conn_mat conn) []) in
    Ok {| tau := tau; delay := delay; g_max := g_max;
          store := DenseStore (conn_mat conn) (rows, cols)
                              (repeat (zeros cols) rows);
          pre_spike := DelayLine.new false delay (num (group pre)) |}
  else Raise UnsupportedError.

(** the right-hand side of [ExpCUBA.integral] *)
Definition dg (self : ExpCUBA) (g : R) : R := - g / tau self.

(** [ExpCUBA.integral], one step of length [dt] *)
Definition integral (self : ExpCUBA) (g _t dt : R) : R :=
  Integrators.exponential_euler (dg self) dt g.

(** [ExpCUBA._sparse_update] *)
Definition _sparse_update (self : ExpCUBA) (pre post : NeuGroup) (_t _dt : R)
  : result (ExpCUBA * NeuGroup) :=
  match store self with
  | SparseStore pre_slice post_ids size g =>
      dl <- DelayLine.push (pre_spike self) (spike pre) ;;
      let pre_spike := DelayLine.pull false dl in
      g <- assign_all g (map (fun x => integral self x _t _dt) g) ;;
      let spike_pre_ids := where_ pre_spike in
      g <- for_each spike_pre_ids
             (fun g pre_id =>
                '(start, stop) <- getitem pre_slice pre_id ;;
                iadd_fancy g (slice post_ids start stop) (g_max self)) g ;;
      inp <- iadd_all (input post) g ;;
      Ok (with_state self (SparseStore pre_slice post_ids size g) dl,
          set_input post inp)
  | DenseStore _ _ _ => Raise AttributeError
  end.

(** [ExpCUBA._dense_update] *)
Definition _dense_update (self : ExpCUBA) (pre post : NeuGroup) (_t _dt : R)
  : result (ExpCUBA * NeuGroup) :=
  match store self with
  | DenseStore conn_mat size g =>
      dl <- DelayLine.push (pre_spike self) (spike pre) ;;
      let pre_spike := DelayLine.pull false dl in
      let g := map (map (fun x => integral self x _t _dt)) g in
      g <- for_each (range (num pre))
             (fun g i =>
                i_spike <- getitem pre_spike i ;;
                if (i_spike : bool) then
                  row <- getitem g i ;;
                  c <- getitem conn_mat i ;;
                  row <- iadd_all row (map (fun x => x * g_max self) c) ;;
                  setitem g i row
                else Ok g) g ;;
      Ok (with_state self (DenseStore conn_mat size g) dl, post)
  | SparseStore _ _ _ _ => Raise AttributeError
  end.

(** the hook installed by [self.steps.replace('update', ...)] *)
Definition update (self : ExpCUBA) (pre post : NeuGroup) (_t _dt : R)
  : result (ExpCUBA * NeuGroup) :=
  match store self with
  | SparseStore _ _ _ _ => _sparse_update self pre post _t _dt
  | DenseStore _ _ _ => _dense_update self pre post _t _dt
  end.

(** [ExpCOBA]: the base object, the reversal potential, and [pre_ids], an
    attribute that [_loop_update] reads and that no method assigns. *)
Record ExpCOBA : Type := {
  base : ExpCUBA;
  E : R;
  pre_ids : option (list nat)
}.

Definition with_base (self : ExpCOBA) (b : ExpCUBA) : ExpCOBA :=
  {| base := b; E := E self; pre_ids := pre_ids self |}.

(** [ExpCOBA.__init__] *)
Definition COBA__init__ (pre post : PyObj) (conn : Conn)
    (g_max : R) (delay : nat) (tau : R) (E : R) (update_type : string)
  : result ExpCOBA :=
  b <- __init__ pre post conn g_max delay tau update_type ;;
  _ <- assert_ (hasattr post "V") ;;
  Ok {| base := b; E := E; pre_ids := None |}.

(** reading an attribute that may be missing *)
Definition getattr {A : Type} (a : option A) : result A :=
  match a with Some x => Ok x | None => Raise AttributeError end.

(** [self.g * (self.E - self.post.V)] *)
Definition drive (E : R) (g V : vec) : result vec :=
  broadcast Rmult g (map (fun v => E - v) V).

(** [ExpCOBA._sparse_update] *)
Definition COBA_sparse_update (self : ExpCOBA) (pre post : NeuGroup)
    (_t _dt : R) : result (ExpCOBA * NeuGroup) :=
  match store (base self) with
  | SparseStore pre_slice post_ids size g =>
      dl <- DelayLine.push (pre_spike (base self)) (spike pre) ;;
      let pre_spike := DelayLine.pull false dl in
      g <- assign_all g (map (fun x => integral (base self) x _t _dt) g) ;;
      g <- for_each (range (num pre))
             (fun g pre_id =>
                s <- getitem pre_spike pre_id ;;
                if (s : bool) then
                  '(start, stop) <- getitem pre_slice pre_id ;;
                  for_each (slice post_ids start stop)
                    (fun g post_id => iadd_item g post_id (g_max (base self)))
                    g
                else Ok g) g ;;
      d <- drive (E self) g (V post) ;;
      inp <- iadd_all (input post) d ;;
      Ok (with_base self
            (with_state (base self) (SparseStore pre_slice post_ids size g) dl),
          set_input post inp)
  | DenseStore _ _ _ => Raise AttributeError
  end.

(** [ExpCOBA._loop_update].  In its last statement the right-hand side is
    the whole array [self.g * (self.E - self.post.V)]; storing the sum into
    the single cell [input[post_i]] is accepted only for an array of one
    element. *)
Definition _loop_update (self : ExpCOBA) (pre post : NeuGroup) (_t _dt : R)
  : result (ExpCOBA * NeuGroup) :=
  match store (base self) with
  | SparseStore pre_slice post_ids size g =>
      dl <- DelayLine.push (pre_spike (base self)) (spike pre) ;;
      let pre_spike := DelayLine.pull false dl in
      g <- assign_all g (map (fun x => integral (base self) x _t _dt) g) ;;
      '(g, inp) <- for_each (range size)
             (fun '(g, inp) i =>
                ids <- getattr (pre_ids self) ;;
                pre_i <- getitem ids i ;;
                post_i <- getitem post_ids i ;;
                s <- getitem pre_spike pre_i ;;
                g <- (if (s : bool) then iadd_item g i (g_max (base self))
                      else Ok g) ;;
                x <- getitem inp post_i ;;
                d <- drive (E self) g (V post) ;;
                match map (Rplus x) d with
                | [y] => inp <- setitem inp post_i y ;; Ok (g, inp)
                | _ => Raise ValueError
                end) (g, input post) ;;
      Ok (with_base self
            (with_state (base self) (SparseStore pre_slice post_ids size g) dl),
          set_input post inp)
  | DenseStore _ _ _ =>
      dl <- DelayLine.push (pre_spike (base self)) (spike pre) ;;
      Raise TypeError
  end.

End Exponential.

(** ** brainmodels/synapses/NMDA.py *)

Module NMDA.

Record NMDA : Type := {
  g_max : R;
  E : R;
  alpha : R;
  beta : R;
  cc_Mg : R;
  tau_decay : R;
  tau_rise : R;
  a : R;
  delay : nat;
  pre_ids : list nat;
  post_ids : list nat;
  size : nat;
  pre_spike : DelayLine.t bool;
  g : vec;
  x : vec
}.

Definition with_state (self : NMDA) (dl : DelayLine.t bool) (g' x' : vec)
  : NMDA :=
  {| g_max := g_max self; E := E self; alpha := alpha self;
     beta := beta self; cc_Mg := cc_Mg self; tau_decay := tau_decay self;
     tau_rise := tau_rise self; a := a self; delay := delay self;
     pre_ids := pre_ids self; post_ids := post_ids self; size := size self;
     pre_spike := dl; g := g'; x := x' |}.

(** [NMDA.__init__]; [delay] is counted in steps of [dt].  As in
    [ExpCUBA.__init__], the calls into the framework are taken to return;
    none of them receives [tau_decay] or [tau_rise]. *)
Definition __init__ (pre post : PyObj) (conn : Conn) (delay : nat)
    (g_max E cc_Mg alpha beta tau_decay a tau_rise : R)
    (update_type : string) : result NMDA :=
  _ <- assert_ (hasattr pre "spike") ;;
  _ <- assert_ (hasattr post "V") ;;
  _ <- assert_ (hasattr post "input") ;;
  if String.eqb update_type "sparse" then
    let size := length (conn_pre_ids conn) in
    Ok {| g_max := g_max; E := E; alpha := alpha; beta := beta;
          cc_Mg := cc_Mg; tau_decay := tau_decay; tau_rise := tau_rise;
          a := a; delay := delay;
          pre_ids := conn_pre_ids conn; post_ids := conn_post_ids conn;
          size := size;
          pre_spike := DelayLine.new false delay (num (group pre));
          g := zeros size; x := zeros size |}
  else if String.eqb update_type "dense" then Raise NotImplementedError
  else Raise UnsupportedError.

(** the right-hand side of [NMDA.integral]: [(dgdt, dxdt)] *)
Definition derivative (self : NMDA) (g x t : R) : R * R :=
  let dxdt := - x / tau_rise self in
  let dgdt := - g / tau_decay self + a self * x * (1 - g) in
  (dgdt, dxdt).

(** the magnesium-block factor computed in the loop of [sparse_update] *)
Definition g_inf (self : NMDA) (v : R) : R :=
  1 + cc_Mg self / beta self * exp (- alpha self * v).

(** what one edge subtracts from [post.input[post_id]] *)
Definition current (self : NMDA) (gi v : R) : R :=
  g_max self * gi * (v - E self) / g_inf self v.

Section Update.
(** the stepper that the framework's [odeint] builds from a right-hand
    side of two variables: [(g, x, t, dt)] to the new [(g, x)] *)
Variable odeint : (R -> R -> R -> R * R) -> R -> R -> R -> R -> R * R.

(** [NMDA.integral] *)
Definition integral (self : NMDA) (g x t dt : R) : R * R :=
  odeint (derivative self) g x t dt.

(** the body of the [for] loop of [sparse_update] on [(x, post.input)] *)
Definition edge (self : NMDA) (delayed_pre_spike : list bool) (Vpost : vec)
    (st : vec * vec) (i : nat) : result (vec * vec) :=
  let '(x, inp) := st in
  pre_id <- getitem (pre_ids self) i ;;
  post_id <- getitem (post_ids self) i ;;
  xi <- getitem x i ;;
  s <- getitem delayed_pre_spike pre_id ;;
  x <- setitem x i (xi + of_bool s) ;;
  v <- getitem Vpost post_id ;;
  let g_inf := 1 + cc_Mg self / beta self * exp (- alpha self * v) in
  old <- getitem inp post_id ;;
  gi <- getitem (g self) i ;;
  inp <- setitem inp post_id
           (old - g_max self * gi * (v - E self) / g_inf) ;;
  Ok (x, inp).

End Update.

End NMDA.

(** ** bpmodels/synapses/GABAa.py *)

Module GABAa.

(** the synapse state [ST]: arrays over the synapses ([get_GABAa1] has no
    [t_last_pre_spike] and leaves it alone) *)
Record SynState : Type := {
  s : vec;
  g : vec;
  t_last_pre_spike : vec
}.

(** the neuron states [pre] and [post]; every item is a float array *)
Record NeuState : Type := {
  spike : vec;
  V : vec;
  input : vec
}.

Definition set_input (post : NeuState) (inp : vec) : NeuState :=
  {| spike := spike post; V := V post; input := inp |}.

(** [np.where(pre['spike'] > 0.)[0]] *)
Definition spiking (pre : NeuState) : list nat :=
  where_ (map (fun sp => Rgtb sp 0) (spike pre)).

(** [a[ids] = c] with an index array *)
Definition assign_fancy (a : vec) (ids : list nat) (c : R) : result vec :=
  for_each ids (fun acc i => setitem acc i c) a.

Section GABAa1.
Variables g_max E tau_decay : R.
(** the step length of the framework's profile *)
Variable dt : R.

(** [int_s] of [get_GABAa1] *)
Definition int_s1 (s t : R) : R :=
  Integrators.euler (fun s => - s / tau_decay) dt s.

(** [update] of [get_GABAa1] *)
Definition update1 (ST : SynState) (pre : NeuState)
    (pre2syn : list (list nat)) : result SynState :=
  let s := map (fun s => int_s1 s 0) (s ST) in
  s <- for_each (spiking pre)
         (fun s pre_id =>
            syn_ids <- getitem pre2syn pre_id ;;
            iadd_fancy s syn_ids 1) s ;;
  Ok {| s := s; g := map (fun s => g_max * s) s;
        t_last_pre_spike := t_last_pre_spike ST |}.

(** [output] of [get_GABAa1] and of [get_GABAa2], which are the same; the
    decorator [bp.delayed] only chooses which copy of [ST] the framework
    passes in *)
Definition output (ST : SynState) (post : NeuState)
    (post2syn : list (list nat)) : result NeuState :=
  post_cond <- map_each (fun syn_ids => sum_fancy (g ST) syn_ids) post2syn ;;
  d <- broadcast Rmult post_cond (map (fun v => v - E) (V post)) ;;
  inp <- isub_all (input post) d ;;
  Ok (set_input post inp).
End GABAa1.

Section GABAa2.
Variables g_max E alpha beta T T_duration : R.
Variable dt : R.

(** [int_s] of [get_GABAa2] *)
Definition int_s2 (s t TT : R) : R :=
  Integrators.euler (fun s => alpha * TT * (1 - s) - beta * s) dt s.

(** [((_t_ - ST['t_last_pre_spike']) < T_duration) * T], one cell *)
Definition transmitter (_t_ t_last : R) : R :=
  of_bool (Rltb (_t_ - t_last) T_duration) * T.

(** [update] of [get_GABAa2] *)
Definition update2 (ST : SynState) (pre : NeuState)
    (pre2syn : list (list nat)) (_t_ : R) : result SynState :=
  t_last <- for_each (spiking pre)
              (fun t_last pre_id =>
                 syn_ids <- getitem pre2syn pre_id ;;
                 assign_fancy t_last syn_ids _t_) (t_last_pre_spike ST) ;;
  let TT := map (transmitter _t_) t_last in
  let s := zip_with (fun s TT => int_s2 s _t_ TT) (s ST) TT in
  Ok {| s := s; g := map (fun s => g_max * s) s;
        t_last_pre_spike := t_last |}.
End GABAa2.

End GABAa.

(** ** bpmodels/neurons/AdQuaIF_model.py *)

Module AdQuaIF.

Record NeuState : Type := {
  V : R;
  w : R;
  input : R;
  spike : R;
  refractory : R;
  t_last_spike : R
}.

Section AdQuaIF.
(** the parameters of [get_AdQuaIF]; [Rm] is the membrane resistance [R] *)
Variables a b a_0 V_c V_rest V_reset V_th Rm tau tau_w : R.
Variables t_refractory noise : R.

(** the steppers that the framework's [integrate] builds from a drift and
    a diffusion term, for a right-hand side with two and with one further
    argument *)
Variable integrate2 : (R -> R -> R -> R -> R * R) -> R -> R -> R -> R -> R.
Variable integrate1 : (R -> R -> R -> R * R) -> R -> R -> R -> R.

Definition int_V : R -> R -> R -> R -> R :=
  integrate2 (fun V t w I_ext =>
    ((a_0 * (V - V_rest) * (V - V_c) - Rm * w + Rm * I_ext) / tau,
     noise / tau)).

Definition int_w : R -> R -> R -> R :=
  integrate1 (fun w t V => ((a * (V - V_rest) - w) / tau_w, noise / tau_w)).

(** [update] of [get_AdQuaIF], scalar mode *)
Definition update (ST : NeuState) (_t : R) : NeuState :=
  let ST := {| V := V ST; w := w ST; input := input ST; spike := 0;
               refractory := refractory ST;
               t_last_spike := t_last_spike ST |} in
  let ST :=
    if Rleb (_t - t_last_spike ST) t_refractory then
      {| V := V ST; w := w ST; input := input ST; spike := spike ST;
         refractory := 1; t_last_spike := t_last_spike ST |}
    else
      let ST := {| V := V ST; w := w ST; input := input ST;
                   spike := spike ST; refractory := 0;
                   t_last_spike := t_last_spike ST |} in
      let w := int_w (w ST) _t (V ST) in
      let V := int_V (V ST) _t w (input ST) in
      if Rgeb V V_th then
        {| V := V_reset; w := w + b; input := input ST; spike := 1;
           refractory := refractory ST; t_last_spike := _t |}
      else
        {| V := V; w := w; input := input ST; spike := spike ST;
           refractory := refractory ST;
           t_last_spike := t_last_spike ST |} in
  (* reset input *)
  {| V := V ST; w := w ST; input := 0; spike := spike ST;
     refractory := refractory ST; t_last_spike := t_last_spike ST |}.
End AdQuaIF.

End AdQuaIF.

(** ** brainmodels/neurons/FHN.py *)

Module FHN.

Record FHN : Type := {
  a : R;
  b : R;
  tau : R;
  Vth : R;
  V : vec;
  w : vec;
  input : vec;
  spike : list bool;
  t_last_spike : vec
}.

(** [FHN.__init__] for a group of [size] neurons *)
Definition __init__ (size : nat) (a b tau Vth : R) : FHN :=
  {| a := a; b := b; tau := tau; Vth := Vth;
     V := zeros size; w := zeros size; input := zeros size;
     spike := repeat false size;
     t_last_spike := repeat (-1e7) size |}.

(** the right-hand side of [FHN.integral]: [(dV, dw)] *)
Definition derivative (self : FHN) (V w t Iext : R) : R * R :=
  let dw := (V + a self - b self * w) / tau self in
  let dV := V - V * V * V / 3 - w + Iext in
  (dV, dw).

Section Update.
(** the stepper that the framework's [odeint] builds from a right-hand
    side: [(V, w, t, Iext, dt)] to the new [(V, w)], applied cell by cell *)
Variable odeint :
  (R -> R -> R -> R -> R * R) -> R -> R -> R -> R -> R -> R * R.

(** [FHN.integral] on the arrays of the group *)
Definition integral (self : FHN) (V w : vec) (t : R) (Iext : vec) (dt : R)
  : list (R * R) :=
  zip_with (fun vw i => odeint (derivative self) (fst vw) (snd vw) t i dt)
           (zip_with pair V w) Iext.

(** [FHN.update] *)
Definition update (self : FHN) (_t _dt : R) : result FHN :=
  let r := integral self (V self) (w self) _t (input self) _dt in
  let V' := map fst r in
  w' <- assign_all (w self) (map snd r) ;;
  spike' <- assign_all (spike self)
              (zip_with (fun v' v => Rgeb v' (Vth self) && Rltb v (Vth self))
                        V' (V self)) ;;
  t_last' <- assign_all (t_last_spike self)
               (zip_with (fun (sp : bool) tl => if sp then _t else tl)
                         spike' (t_last_spike self)) ;;
  V'' <- assign_all (V self) V' ;;
  let input' := fill (input self) 0 in
  Ok {| a := a self; b := b self; tau := tau self; Vth := Vth self;
        V := V''; w := w'; input := input'; spike := spike';
        t_last_spike := t_last' |}.
End Update.

End FHN.

(** * Well-formed states and sample data *)

(** The shape invariant of a delay line for a population of [n] neurons. *)
Definition delay_wf {A : Type} (dl : DelayLine.t A) (n : nat) : Prop :=
  DelayLine.N_pre dl = n /\
  (DelayLine.head dl < DelayLine.capacity dl)%nat /\
  length (DelayLine.buffer dl) = DelayLine.capacity dl /\
  Forall (fun row => length row = n) (DelayLine.buffer dl).

(** The arrays of an [FHN] group all have the shape of the group. *)
Definition FHN_wf (self : FHN.FHN) : Prop :=
  length (FHN.w self) = length (FHN.V self) /\
  length (FHN.input self) = length (FHN.V self) /\
  length (FHN.spike self) = length (FHN.V self) /\
  length (FHN.t_last_spike self) = length (FHN.V self).

(** [n] successive steps of a scalar stepper *)
Definition repeat_step (step : R -> R) (n : nat) (g : R) : R :=
  Nat.iter n step g.

(** The shapes that a sparse [ExpCUBA] or [ExpCOBA] and its two groups
    have after construction on a connectivity whose post-ids are in range. *)
Definition sparse_wf (self : Exponential.ExpCUBA) (pre post : NeuGroup)
  : Prop :=
  match Exponential.store self with
  | Exponential.SparseStore pre_slice post_ids size g =>
      delay_wf (Exponential.pre_spike self) (num pre) /\
      length (spike pre) = num pre /\
      length pre_slice = num pre /\
      Forall (fun j => (j < num post)%nat) post_ids /\
      length g = num post /\
      length (V post) = num post /\
      length (input post) = num post
  | Exponential.DenseStore _ _ _ => False
  end.

(** The post-ids of the edges that leave the pre-synaptic neurons of [l]
    whose delayed spike flag is set, one entry per edge. *)
Definition targets (pre_slice : list (nat * nat)) (post_ids : list nat)
    (delayed : list bool) (l : list nat) : list nat :=
  flat_map (fun pre_id =>
              if nth pre_id delayed false
              then let '(start, stop) := nth pre_id pre_slice (0, 0)%nat in
                   slice post_ids start stop
              else []) l.

(** The shapes of an [NMDA] synapse and its two groups after construction on
    a connectivity whose ids are in range. *)
Definition NMDA_wf (self : NMDA.NMDA) (pre post : NeuGroup) : Prop :=
  delay_wf (NMDA.pre_spike self) (num pre) /\
  length (spike pre) = num pre /\
  length (NMDA.pre_ids self) = NMDA.size self /\
  length (NMDA.post_ids self) = NMDA.size self /\
  length (NMDA.g self) = NMDA.size self /\
  length (NMDA.x self) = NMDA.size self /\
  Forall (fun i => (i < num pre)%nat) (NMDA.pre_ids self) /\
  Forall (fun j => (j < num post)%nat) (NMDA.post_ids self) /\
  length (V post) = num post /\
  length (input post) = num post.


(** the sum of [f i] over the indices [i] of [l] *)
Definition sum_over (l : list nat) (f : nat -> R) : R :=
  fold_right (fun i acc => f i + acc) 0 l.

(** The shapes that [output] of the GABAa models needs: one list of synapse
    ids per post-synaptic neuron, every id within the synapse state. *)
Definition output_wf (ST : GABAa.SynState) (post : GABAa.NeuState)
    (post2syn : list (list nat)) : Prop :=
  length post2syn = length (GABAa.V post) /\
  length (GABAa.input post) = length (GABAa.V post) /\
  Forall (Forall (fun k => (k < length (GABAa.g ST))%nat)) post2syn.

(** The shapes that [update] of [get_GABAa2] needs: the items of [ST] have
    one cell per synapse, [pre2syn] has one list of synapse ids per
    pre-synaptic neuron. *)
Definition update_wf (ST : GABAa.SynState) (pre : GABAa.NeuState)
    (pre2syn : list (list nat)) : Prop :=
  length (GABAa.t_last_pre_spike ST) = length (GABAa.s ST) /\
  length pre2syn = length (GABAa.spike pre) /\
  Forall (Forall (fun k => (k < length (GABAa.s ST))%nat)) pre2syn.

(** the synapse [k] leaves a pre-synaptic neuron that spikes this tick *)
Definition triggered (pre : GABAa.NeuState) (pre2syn : list (list nat))
    (k : nat) : Prop :=
  exists pre_id,
    (pre_id < length (GABAa.spike pre))%nat /\
    nth pre_id (GABAa.spike pre) 0 > 0 /\
    In k (nth pre_id pre2syn []).

(** the synapse [k] is listed under one of the pre-synaptic neurons of [l] *)
Definition reached (pre2syn : list (list nat)) (l : list nat) (k : nat)
  : bool :=
  existsb (fun p => existsb (Nat.eqb k) (nth p pre2syn [])) l.

(** the slice of the pre-synaptic neuron [pre_id] lists the post-synaptic
    neuron [j] *)
Definition feeds (pre_slice : list (nat * nat)) (post_ids : list nat)
    (j pre_id : nat) : bool :=
  let '(start, stop) := nth pre_id pre_slice (0, 0)%nat in
  existsb (Nat.eqb j) (slice post_ids start stop).

(** The shapes that a dense [ExpCUBA] and its pre-synaptic group have after
    construction on a connectivity matrix with one row per pre-synaptic
    neuron. *)
Definition dense_wf (self : Exponential.ExpCUBA) (pre : NeuGroup) : Prop :=
  match Exponential.store self with
  | Exponential.DenseStore conn_mat size g =>
      delay_wf (Exponential.pre_spike self) (num pre) /\
      length (spike pre) = num pre /\
      length conn_mat = num pre /\
      length g = num pre /\
      forall i, (i < num pre)%nat ->
        length (nth i conn_mat []) = length (nth i g [])
  | Exponential.SparseStore _ _ _ _ => False
  end.

(** what [ExpCUBA._dense_update] does to one row of [self.g] whose
    pre-synaptic neuron has its delayed spike flag set *)
Definition dense_row (g_max : R) (row c : vec) : vec :=
  zip_with Rplus row (map (fun x => x * g_max) c).

Module Sample.

(** one pre-synaptic neuron that spikes, one post-synaptic neuron, one edge *)
Definition pre1 : NeuGroup :=
  {| num := 1; spike := [true]; V := [0]; input := [0] |}.
Definition post1 : NeuGroup :=
  {| num := 1; spike := [false]; V := [0]; input := [0] |}.
Definition conn1 : Conn :=
  {| conn_pre_slice := [(0, 1)%nat]; conn_pre_ids := [0%nat];
     conn_post_ids := [0%nat]; conn_mat := [[1]] |}.

(** an [ExpCUBA] with the default parameters of the source *)
Definition cuba (tau : R) : Exponential.ExpCUBA :=
  {| Exponential.tau := tau; Exponential.delay := 0;
     Exponential.g_max := 1;
     Exponential.store := Exponential.SparseStore [(0, 1)%nat] [0%nat] 1 [0];
     Exponential.pre_spike := DelayLine.new false 0 1 |}.


Definition euler_fhn (f : R -> R -> R -> R -> R * R) (V w t Iext dt : R)
  : R * R :=
  (V + dt * fst (f V w t Iext), w + dt * snd (f V w t Iext)).

(** two post-synaptic neurons, both reached from the one pre-synaptic
    neuron *)
Definition post2 : NeuGroup :=
  {| num := 2; spike := [false; false]; V := [-65; -65]; input := [0; 0] |}.

Definition conn2 : Conn :=
  {| conn_pre_slice := [(0, 2)%nat]; conn_pre_ids := [0%nat; 0%nat];
     conn_post_ids := [0%nat; 1%nat]; conn_mat := [[1; 1]] |}.

(** an [ExpCOBA] on those two edges, as [ExpCOBA.__init__] builds it for
    [update_type = 'sparse'], with the attribute [pre_ids] set by hand to
    the sources of the two edges *)
Definition coba2 : Exponential.ExpCOBA :=
  {| Exponential.base :=
       {| Exponential.tau := 8; Exponential.delay := 0;
          Exponential.g_max := 1;
          Exponential.store :=
            Exponential.SparseStore [(0, 2)%nat] [0%nat; 1%nat] 2 [0; 0];
          Exponential.pre_spike := DelayLine.new false 0 1 |};
     Exponential.E := 0;
     Exponential.pre_ids := Some [0%nat; 0%nat] |}.


(** a GABAa synapse state of two synapses onto one post-synaptic neuron
    that sits at the reversal potential [E = -80] *)
Definition gaba_ST : GABAa.SynState :=
  {| GABAa.s := [0.5; 0.25]; GABAa.g := [0.2; 0.1];
     GABAa.t_last_pre_spike := [-1e7; -1e7] |}.
Definition gaba_pre : GABAa.NeuState :=
  {| GABAa.spike := [1; 0]; GABAa.V := [0; 0]; GABAa.input := [0; 0] |}.
Definition gaba_post : GABAa.NeuState :=
  {| GABAa.spike := [0]; GABAa.V := [-80]; GABAa.input := [3] |}.
Definition gaba_pre2syn : list (list nat) := [[0%nat]; [1%nat]].
Definition gaba_post2syn : list (list nat) := [[0%nat; 1%nat]].

(** an [NMDA] synapse with the default parameters of the source, built on
    the one-edge connectivity *)
Definition nmda : NMDA.NMDA :=
  {| NMDA.g_max := 0.15; NMDA.E := 0; NMDA.alpha := 0.062;
     NMDA.beta := 3.57; NMDA.cc_Mg := 1.2; NMDA.tau_decay := 100;
     NMDA.tau_rise := 2; NMDA.a := 0.5; NMDA.delay := 0;
     NMDA.pre_ids := [0%nat]; NMDA.post_ids := [0%nat]; NMDA.size := 1;
     NMDA.pre_spike := DelayLine.new false 0 1;
     NMDA.g := [0]; NMDA.x := [0] |}.

(** an [FHN] group of two neurons with the default parameters *)
Definition fhn : FHN.FHN := FHN.__init__ 2 0.7 0.8 12.5 1.8.

(** an [AdQuaIF] neuron inside its refractory period, with pending input *)
Definition adquaif_ST : AdQuaIF.NeuState :=
  {| AdQuaIF.V := -68; AdQuaIF.w := 0.1; AdQuaIF.input := 2;
     AdQuaIF.spike := 1; AdQuaIF.refractory := 0;
     AdQuaIF.t_last_spike := 4 |}.

(** forward Euler steppers on the drift, without noise *)
Definition euler_V (f : R -> R -> R -> R -> R * R) (V t w I_ext : R) : R :=
  V + 0.1 * fst (f V t w I_ext).
Definition euler_w (f : R -> R -> R -> R * R) (w t V : R) : R :=
  w + 0.1 * fst (f w t V).

(** an [ExpCUBA] on the one-edge connectivity given as a matrix *)
Definition cuba_dense : Exponential.ExpCUBA :=
  {| Exponential.tau := 8; Exponential.delay := 0;
     Exponential.g_max := 1;
     Exponential.store := Exponential.DenseStore [[1]] (1, 1)%nat [[0]];
     Exponential.pre_spike := DelayLine.new false 0 1 |}.


(** an [AdQuaIF] neuron at rest that receives a strong input *)
Definition adquaif_driven : AdQuaIF.NeuState :=
  {| AdQuaIF.V := -65; AdQuaIF.w := 0; AdQuaIF.input := 10000;
     AdQuaIF.spike := 0; AdQuaIF.refractory := 0;
     AdQuaIF.t_last_spike := -1e7 |}.

End Sample.

(** * Properties *)

(** ** Arrays *)

Section ArrFacts.
Context {A : Type}.

Lemma getitem_ok (a : list A) (i : nat) (d : A) :
  (i < length a)%nat -> getitem a i = Ok (nth i a d).
Proof.
  unfold getitem. revert i.
  induction a as [|h t IH]; intros [|i] Hi; simpl in *; try lia; auto.
  apply IH. lia.
Qed.

Lemma getitem_raise (a : list A) (i : nat) :
  (length a <= i)%nat -> getitem a i = Raise IndexError.
Proof.
  intros Hi. unfold getitem.
  destruct (nth_error a i) eqn:Hn; auto.
  assert (nth_error a i <> None) as Hs by congruence.
  apply nth_error_Some in Hs. lia.
Qed.

Lemma getitem_inv (a : list A) (i : nat) (y : A) (d : A) :
  getitem a i = Ok y -> (i < length a)%nat /\ y = nth i a d.
Proof.
  intros H. destruct (Nat.lt_ge_cases i (length a)) as [Hi|Hi].
  - rewrite (getitem_ok a i d Hi) in H. split; congruence.
  - rewrite getitem_raise in H by exact Hi. discriminate.
Qed.

Lemma length_upd (a : list A) (i : nat) (y : A) :
  length (upd a i y) = length a.
Proof.
  revert i. induction a as [|h t IH]; intros [|i]; simpl; auto.
Qed.

Lemma nth_upd_eq (a : list A) (i : nat) (y d : A) :
  (i < length a)%nat -> nth i (upd a i y) d = y.
Proof.
  revert i. induction a as [|h t IH]; intros [|i] Hi; simpl in *;
    try lia; auto.
  apply IH. lia.
Qed.

Lemma nth_upd_neq (a : list A) (i j : nat) (y d : A) :
  i <> j -> nth j (upd a i y) d = nth j a d.
Proof.
  revert i j. induction a as [|h t IH]; intros [|i] [|j] Hij; simpl;
    try congruence; auto.
Qed.

Lemma setitem_ok (a : list A) (i : nat) (y : A) :
  (i < length a)%nat -> setitem a i y = Ok (upd a i y).
Proof.
  intros Hi. unfold setitem.
  destruct (Nat.ltb_spec i (length a)); [reflexivity | lia].
Qed.

Lemma setitem_inv (a a' : list A) (i : nat) (y : A) :
  setitem a i y = Ok a' -> (i < length a)%nat /\ a' = upd a i y.
Proof.
  unfold setitem. destruct (Nat.ltb_spec i (length a)); intros Hs.
  - split; congruence.
  - discriminate.
Qed.

Lemma assign_all_same (a b : list A) :
  length b = length a -> assign_all a b = Ok b.
Proof.
  intros H. unfold assign_all. rewrite H, Nat.eqb_refl. reflexivity.
Qed.

Lemma length_fill (a : list A) (c : A) : length (fill a c) = length a.
Proof. apply length_map. Qed.

Lemma nth_fill (a : list A) (c d : A) (i : nat) :
  (i < length a)%nat -> nth i (fill a c) d = c.
Proof.
  unfold fill. revert i.
  induction a as [|h t IH]; intros [|i] Hi; simpl in *; try lia; auto.
  apply IH. lia.
Qed.

Lemma length_zip_with {B C : Type} (f : A -> B -> C) (a : list A)
    (b : list B) :
  length (zip_with f a b) = Nat.min (length a) (length b).
Proof.
  revert b. induction a as [|h t IH]; intros [|y b]; simpl; auto.
Qed.

Lemma nth_zip_with {B C : Type} (f : A -> B -> C) (a : list A)
    (b : list B) (i : nat) (da : A) (db : B) (dc : C) :
  (i < length a)%nat -> (i < length b)%nat ->
  nth i (zip_with f a b) dc = f (nth i a da) (nth i b db).
Proof.
  revert b i.
  induction a as [|h t IH]; intros [|y b] [|i] Ha Hb; simpl in *;
    try lia; auto.
  apply IH; lia.
Qed.
Lemma nth_map_in {B : Type} (f : A -> B) (a : list A) (i : nat) (da : A)
    (db : B) :
  (i < length a)%nat -> nth i (map f a) db = f (nth i a da).
Proof.
  intros Hi. rewrite (nth_indep _ db (f da)) by (rewrite length_map; exact Hi).
  apply map_nth.
Qed.
End ArrFacts.

Lemma bind_ok {A B : Type} (m : result A) (k : A -> result B) (y : B) :
  Py.bind m k = Ok y -> exists a, m = Ok a /\ k a = Ok y.
Proof.
  destruct m as [a|e]; simpl; intros H; [eauto | discriminate].
Qed.

(** ** The delay line *)

Section DelayFacts.
Context {A : Type}.
Variable zero : A.


Lemma last_written_lt (dl : DelayLine.t A) :
  (DelayLine.head dl < DelayLine.capacity dl)%nat ->
  (DelayLine.last_written dl < DelayLine.capacity dl)%nat.
Proof.
  intros Hh. unfold DelayLine.last_written, DelayLine.capacity in *.
  apply Nat.mod_upper_bound. lia.
Qed.

(** [pull] reads the row at the previous cursor position *)
Lemma pull_reads_last_written (dl : DelayLine.t A) :
  (DelayLine.head dl < DelayLine.capacity dl)%nat ->
  DelayLine.pull zero dl =
  nth (DelayLine.last_written dl) (DelayLine.buffer dl)
      (repeat zero (DelayLine.N_pre dl)).
Proof.
  intros Hh. pose proof (last_written_lt dl Hh) as Hl.
  unfold DelayLine.pull. unfold DelayLine.capacity in *.
  f_equal.
  replace (DelayLine.last_written dl + DelayLine.D dl - DelayLine.D dl)%nat
    with (DelayLine.last_written dl) by lia.
  apply Nat.mod_small. exact Hl.
Qed.
End DelayFacts.

(** ** Decay of a gating variable *)

Section Decay.
Variable q : R.
Hypothesis q_pos : 0 < q.
Hypothesis q_lt_1 : q < 1.

Lemma repeat_step_linear (step : R -> R) (n : nat) (g : R) :
  (forall y, step y = y * q) -> repeat_step step n g = g * q ^ n.
Proof.
  intros Hstep. unfold repeat_step.
  induction n as [|n IH].
  - simpl. ring.
  - rewrite Nat.iter_succ, IH, Hstep. simpl. ring.
Qed.

Lemma geometric_positive (n : nat) (g : R) : 0 < g -> 0 < g * q ^ n.
Proof.
  intros Hg. apply Rmult_lt_0_compat; [exact Hg | apply pow_lt, q_pos].
Qed.

Lemma geometric_decreases (n : nat) (g : R) :
  0 < g -> g * q ^ S n < g * q ^ n.
Proof.
  intros Hg. pose proof (geometric_positive n g Hg) as Hp.
  simpl. nra.
Qed.

Lemma geometric_vanishes (g eps : R) :
  0 < g -> 0 < eps ->
  exists N, forall n, (N <= n)%nat -> g * q ^ n < eps.
Proof.
  intros Hg He.
  assert (Rabs q < 1) as Hq by (rewrite Rabs_pos_eq; lra).
  assert (0 < eps / g) as Heg by (apply Rdiv_lt_0_compat; assumption).
  destruct (pow_lt_1_zero q Hq (eps / g) Heg) as [N HN].
  exists N. intros n Hn.
  specialize (HN n Hn).
  rewrite Rabs_pos_eq in HN by (apply pow_le; lra).
  apply (Rmult_lt_compat_l g) in HN; [|exact Hg].
  replace (g * (eps / g)) with eps in HN by (field; lra).
  exact HN.
Qed.

Lemma linear_step_decays (step : R -> R) (g : R) :
  (forall y, step y = y * q) -> 0 < g ->
  (forall n, 0 < repeat_step step (S n) g < repeat_step step n g) /\
  (forall eps, 0 < eps ->
     exists N, forall n, (N <= n)%nat -> repeat_step step n g < eps).
Proof.
  intros Hstep Hg. split.
  - intros n. rewrite !(repeat_step_linear step _ g Hstep).
    split; [apply geometric_positive | apply geometric_decreases];
      exact Hg.
  - intros eps He.
    destruct (geometric_vanishes g eps Hg He) as [N HN].
    exists N. intros n Hn.
    rewrite (repeat_step_linear step _ g Hstep). apply HN, Hn.
Qed.
End Decay.

Lemma exp_euler_factor (tau dt : R) :
  0 < tau -> 0 < dt -> 0 < exp (- 1 / tau * dt) < 1.
Proof.
  intros Htau Hdt. split; [apply exp_pos|].
  rewrite <- exp_0. apply exp_increasing.
  assert (0 < / tau) by (apply Rinv_0_lt_compat; exact Htau).
  unfold Rdiv. nra.
Qed.

Lemma integral_linear (self : Exponential.ExpCUBA) (g t dt : R) :
  Exponential.integral self g t dt
  = g * exp (- 1 / Exponential.tau self * dt).
Proof. reflexivity. Qed.

Lemma euler_factor (tau dt : R) :
  0 < dt -> dt < tau -> 0 < 1 - dt / tau < 1.
Proof.
  intros Hdt Hlt.
  assert (0 < tau) as Htau by lra.
  assert (0 < dt / tau) by (apply Rdiv_lt_0_compat; assumption).
  assert (dt / tau < 1).
  { apply (Rmult_lt_reg_r tau); [exact Htau|].
    unfold Rdiv. rewrite Rmult_assoc, Rinv_l by lra. lra. }
  lra.
Qed.

Lemma int_s1_linear (tau_decay dt s t : R) :
  GABAa.int_s1 tau_decay dt s t = s * (1 - dt / tau_decay).
Proof.
  unfold GABAa.int_s1, Integrators.euler, Rdiv. ring.
Qed.

(** ** FHN *)

Lemma fill_zeros (a : vec) : fill a 0 = zeros (length a).
Proof.
  unfold fill, zeros. induction a as [|h t IH]; simpl; congruence.
Qed.

Lemma FHN_init_wf (size : nat) (a b tau Vth : R) :
  FHN_wf (FHN.__init__ size a b tau Vth).
Proof.
  unfold FHN_wf, FHN.__init__, zeros. simpl.
  rewrite !repeat_length. auto.
Qed.

Section FHNFacts.
Variable odeint :
  (R -> R -> R -> R -> R * R) -> R -> R -> R -> R -> R -> R * R.

Lemma length_integral (self : FHN.FHN) (t dt : R) :
  FHN_wf self ->
  length (FHN.integral odeint self (FHN.V self) (FHN.w self) t
                       (FHN.input self) dt)
  = length (FHN.V self).
Proof.
  intros (Hw & Hi & _). unfold FHN.integral.
  rewrite !length_zip_with. lia.
Qed.

Lemma FHN_update_ok (self : FHN.FHN) (t dt : R) :
  FHN_wf self ->
  exists self',
    FHN.update odeint self t dt = Ok self' /\
    FHN.input self' = zeros (length (FHN.input self)) /\
    FHN_wf self'.
Proof.
  intros Hwf. pose proof (length_integral self t dt Hwf) as Hr.
  destruct Hwf as (Hw & Hi & Hs & Ht).
  unfold FHN.update.
  set (r := FHN.integral odeint self (FHN.V self) (FHN.w self) t
                         (FHN.input self) dt) in *.
  rewrite assign_all_same by (rewrite length_map; lia).
  cbn [Py.bind].
  rewrite assign_all_same
    by (rewrite length_zip_with, length_map; lia).
  cbn [Py.bind].
  rewrite assign_all_same
    by (rewrite !length_zip_with, length_map; lia).
  cbn [Py.bind].
  rewrite assign_all_same by (rewrite length_map; lia).
  cbn [Py.bind].
  eexists. split; [reflexivity|].
  unfold FHN_wf. cbn [FHN.input FHN.V FHN.w FHN.spike FHN.t_last_spike].
  split; [apply fill_zeros|].
  rewrite length_fill, !length_zip_with, !length_map. lia.
Qed.
End FHNFacts.

(** ** Delay lines keep their shape *)

Lemma Forall_upd {A : Type} (P : A -> Prop) (a : list A) (i : nat) (y : A) :
  Forall P a -> P y -> Forall P (upd a i y).
Proof.
  intros Ha Hy. revert i.
  induction Ha as [|h t Hh Ht IH]; intros [|i]; simpl; auto.
Qed.

Lemma push_ok {A : Type} (dl : DelayLine.t A) (v : list A) (n : nat) :
  delay_wf dl n -> length v = n ->
  exists dl', DelayLine.push dl v = Ok dl' /\ delay_wf dl' n.
Proof.
  intros (HN & Hh & Hlen & Hrows) Hv.
  unfold DelayLine.push. rewrite HN, Hv, Nat.eqb_refl.
  eexists. split; [reflexivity|].
  unfold delay_wf, DelayLine.capacity in *.
  cbn [DelayLine.D DelayLine.N_pre DelayLine.head DelayLine.buffer].
  repeat split; auto.
  - apply Nat.mod_upper_bound. lia.
  - rewrite length_upd. exact Hlen.
  - apply Forall_upd; assumption.
Qed.

Lemma pull_length {A : Type} (zero : A) (dl : DelayLine.t A) (n : nat) :
  delay_wf dl n -> length (DelayLine.pull zero dl) = n.
Proof.
  intros (HN & Hh & Hlen & Hrows).
  rewrite pull_reads_last_written by exact Hh.
  pose proof (last_written_lt dl Hh) as Hl.
  rewrite Forall_forall in Hrows. apply Hrows, nth_In. lia.
Qed.

Lemma new_wf {A : Type} (zero : A) (d n : nat) :
  delay_wf (DelayLine.new zero d n) n.
Proof.
  unfold delay_wf, DelayLine.capacity, DelayLine.new.
  cbn [DelayLine.D DelayLine.N_pre DelayLine.head DelayLine.buffer].
  repeat split; try lia.
  - apply repeat_length.
  - apply Forall_forall. intros row Hrow.
    apply repeat_spec in Hrow. subst row. apply repeat_length.
Qed.



(** ** Elementwise operations on arrays of one shape *)

Lemma broadcast_same (f : R -> R -> R) (a b : vec) :
  length a = length b -> broadcast f a b = Ok (zip_with f a b).
Proof.
  intros H. unfold broadcast. rewrite H, Nat.eqb_refl. reflexivity.
Qed.

Lemma iadd_all_same (a b : vec) :
  length b = length a -> iadd_all a b = Ok (zip_with Rplus a b).
Proof.
  intros H. unfold iadd_all. rewrite broadcast_same by congruence.
  cbn [Py.bind]. apply assign_all_same.
  rewrite length_zip_with. lia.
Qed.

Lemma isub_all_same (a b : vec) :
  length b = length a -> isub_all a b = Ok (zip_with Rminus a b).
Proof.
  intros H. unfold isub_all. rewrite broadcast_same by congruence.
  cbn [Py.bind]. apply assign_all_same.
  rewrite length_zip_with. lia.
Qed.

Lemma Forall_firstn_keep {A : Type} (P : A -> Prop) (a : list A) (k : nat) :
  Forall P a -> Forall P (firstn k a).
Proof.
  intros Ha. revert k.
  induction Ha as [|h t Hh Ht IH]; intros [|k]; simpl; auto.
Qed.

Lemma Forall_skipn_keep {A : Type} (P : A -> Prop) (a : list A) (k : nat) :
  Forall P a -> Forall P (skipn k a).
Proof.
  intros Ha. revert k.
  induction Ha as [|h t Hh Ht IH]; intros [|k]; simpl; auto.
Qed.

Lemma Forall_slice {A : Type} (P : A -> Prop) (a : list A)
    (start stop : nat) :
  Forall P a -> Forall P (slice a start stop).
Proof.
  intros Ha. unfold slice.
  apply Forall_firstn_keep, Forall_skipn_keep, Ha.
Qed.

(** ** ExpCOBA: the sparse update *)

Lemma iadd_item_ok (a : vec) (i : nat) (c : R) :
  (i < length a)%nat -> iadd_item a i c = Ok (upd a i (nth i a 0 + c)).
Proof.
  intros Hi. unfold iadd_item.
  rewrite (getitem_ok a i 0 Hi). cbn [Py.bind]. apply setitem_ok, Hi.
Qed.

(** the inner loop [for post_id in ...: self.g[post_id] += self.g_max] adds
    [c] to a cell once per occurrence of its index *)
Lemma post_loop (c : R) (l : list nat) (g : vec) :
  Forall (fun j => (j < length g)%nat) l ->
  exists g',
    for_each l (fun g post_id => iadd_item g post_id c) g = Ok g' /\
    length g' = length g /\
    forall j, nth j g' 0 = nth j g 0 + c * INR (count_occ Nat.eq_dec l j).
Proof.
  revert g. induction l as [|i t IH]; intros g Hl.
  - exists g. simpl. repeat split; auto. intros j. ring.
  - inversion Hl as [|? ? Hi Ht]; subst.
    cbn [for_each]. rewrite iadd_item_ok by exact Hi. cbn [Py.bind].
    destruct (IH (upd g i (nth i g 0 + c))) as (g' & Hrun & Hlen & Hnth).
    { rewrite length_upd. exact Ht. }
    exists g'. split; [exact Hrun|]. split.
    { rewrite Hlen. apply length_upd. }
    intros j. rewrite Hnth.
    destruct (Nat.eq_dec i j) as [->|Hij].
    + rewrite nth_upd_eq by exact Hi.
      rewrite count_occ_cons_eq by reflexivity. rewrite S_INR. ring.
    + rewrite nth_upd_neq by exact Hij.
      rewrite count_occ_cons_neq by exact Hij. ring.
Qed.

(** the loop over the pre-synaptic neurons of [ExpCOBA._sparse_update] *)
Lemma spike_loop (pre_slice : list (nat * nat)) (post_ids : list nat)
    (delayed : list bool) (c : R) (l : list nat) (g : vec) :
  Forall (fun j => (j < length g)%nat) post_ids ->
  Forall (fun p => (p < length delayed)%nat /\ (p < length pre_slice)%nat) l ->
  exists g',
    for_each l
      (fun g pre_id =>
         s <- getitem delayed pre_id ;;
         if (s : bool) then
           '(start, stop) <- getitem pre_slice pre_id ;;
           for_each (slice post_ids start stop)
             (fun g post_id => iadd_item g post_id c) g
         else Ok g) g = Ok g' /\
    length g' = length g /\
    forall j,
      nth j g' 0
      = nth j g 0
        + c * INR (count_occ Nat.eq_dec
                     (targets pre_slice post_ids delayed l) j).
Proof.
  intros Hpost. revert g Hpost.
  induction l as [|p t IH]; intros g Hpost Hl.
  - exists g. simpl. repeat split; auto. intros j. ring.
  - inversion Hl as [|? ? [Hpd Hps] Ht]; subst.
    cbn [for_each]. rewrite (getitem_ok delayed p false Hpd).
    cbn [Py.bind]. cbn [targets flat_map].
    destruct (nth p delayed false) eqn:Hs.
    + rewrite (getitem_ok pre_slice p (0, 0)%nat Hps). cbn [Py.bind].
      destruct (nth p pre_slice (0, 0)%nat) as [start stop] eqn:Hse.
      destruct (post_loop c (slice post_ids start stop) g)
        as (g1 & Hrun1 & Hlen1 & Hnth1).
      { apply Forall_slice, Hpost. }
      rewrite Hrun1. cbn [Py.bind].
      destruct (IH g1) as (g' & Hrun & Hlen & Hnth).
      { rewrite Hlen1. exact Hpost. }
      { exact Ht. }
      exists g'. split; [exact Hrun|]. split; [congruence|].
      intros j. rewrite Hnth, Hnth1, count_occ_app, plus_INR.
      fold (targets pre_slice post_ids delayed t). ring.
    + destruct (IH g Hpost Ht) as (g' & Hrun & Hlen & Hnth).
      exists g'. split; [exact Hrun|]. split; [exact Hlen|].
      intros j. rewrite Hnth. simpl.
      fold (targets pre_slice post_ids delayed t). reflexivity.
Qed.


Lemma drive_same (E : R) (g V : vec) :
  length g = length V ->
  Exponential.drive E g V
  = Ok (zip_with Rmult g (map (fun v => E - v) V)).
Proof.
  intros H. unfold Exponential.drive. apply broadcast_same.
  rewrite length_map. exact H.
Qed.


(** ** ExpCOBA: the per-edge loop *)

(** On an object built by [ExpCOBA.__init__] the attribute [pre_ids] is
    missing, so the first iteration of [_loop_update] raises. *)
Lemma loop_update_unset_pre_ids (self : Exponential.ExpCOBA)
    (pre post : NeuGroup) (_t _dt : R)
    (pre_slice : list (nat * nat)) (post_ids : list nat) (n : nat) (g : vec) :
  Exponential.store (Exponential.base self)
  = Exponential.SparseStore pre_slice post_ids (S n) g ->
  Exponential.pre_ids self = None ->
  delay_wf (Exponential.pre_spike (Exponential.base self))
           (length (spike pre)) ->
  Exponential._loop_update self pre post _t _dt = Raise AttributeError.
Proof.
  intros Hst Hids Hdl.
  destruct (push_ok _ (spike pre) _ Hdl eq_refl) as (dl & Hpush & _).
  unfold Exponential._loop_update. rewrite Hst, Hpush. cbn [Py.bind].
  rewrite assign_all_same by (rewrite length_map; reflexivity).
  cbn [Py.bind]. unfold range. cbn [seq for_each].
  rewrite Hids. reflexivity.
Qed.

(** With [pre_ids] supplied, the last statement of the first iteration adds
    the whole array [self.g * (self.E - self.post.V)] to one cell: with two
    or more post-synaptic neurons the store raises. *)
Lemma loop_update_whole_array (self : Exponential.ExpCOBA)
    (pre post : NeuGroup) (_t _dt : R)
    (pre_slice : list (nat * nat)) (post_ids ids : list nat) (size : nat)
    (g : vec) :
  Exponential.store (Exponential.base self)
  = Exponential.SparseStore pre_slice post_ids size g ->
  Exponential.pre_ids self = Some ids ->
  sparse_wf (Exponential.base self) pre post ->
  size = num post -> (2 <= num post)%nat ->
  (0 < length ids)%nat -> (nth 0 ids 0 < num pre)%nat ->
  (0 < length post_ids)%nat ->
  Exponential._loop_update self pre post _t _dt = Raise ValueError.
Proof.
  intros Hst Hids Hwf Hsize H2 Hl Hpre Hlp.
  unfold sparse_wf in Hwf. rewrite Hst in Hwf.
  destruct Hwf as (Hdl & Hsp & Hps & Hpost & Hg & HV & Hin).
  destruct (push_ok _ (spike pre) (num pre) Hdl Hsp) as (dl & Hpush & Hdl').
  pose proof (pull_length false dl (num pre) Hdl') as Hpull.
  unfold Exponential._loop_update. rewrite Hst, Hpush. cbn [Py.bind].
  rewrite assign_all_same by (rewrite length_map; reflexivity).
  cbn [Py.bind].
  set (g1 := map (fun y => Exponential.integral (Exponential.base self) y _t _dt) g).
  assert (length g1 = num post) as Hg1
    by (unfold g1; rewrite length_map; exact Hg).
  destruct size as [|size]; [lia|].
  unfold range. cbn [seq for_each]. rewrite Hids.
  cbn [Exponential.getattr Py.bind].
  rewrite (getitem_ok ids 0 0%nat Hl). cbn [Py.bind].
  rewrite (getitem_ok post_ids 0 0%nat Hlp). cbn [Py.bind].
  rewrite (getitem_ok (DelayLine.pull false dl) _ false) by lia.
  cbn [Py.bind].
  assert (nth 0 post_ids 0 < num post)%nat as Hp0.
  { rewrite Forall_forall in Hpost. apply Hpost, nth_In, Hlp. }
  destruct (nth (nth 0 ids 0%nat) (DelayLine.pull false dl) false);
    [rewrite iadd_item_ok by lia|]; cbn [Py.bind];
    rewrite (getitem_ok (input post) _ 0) by lia; cbn [Py.bind];
    rewrite drive_same by (rewrite ?length_upd; lia); cbn [Py.bind];
    match goal with
    | |- context [map (Rplus ?x) ?d] =>
        assert (2 <= length (map (Rplus x) d))%nat as Hd
          by (rewrite length_map, length_zip_with, length_map, ?length_upd;
              lia);
        destruct (map (Rplus x) d) as [|y [|z r]]; simpl in Hd; try lia;
        reflexivity
    end.
Qed.

(** ** NMDA: the loop over the edges *)


Section NMDAFacts.
Variable self : NMDA.NMDA.
Variable delayed : list bool.
Variable Vp : vec.
Variable n_post : nat.
Hypothesis pre_len : length (NMDA.pre_ids self) = NMDA.size self.
Hypothesis post_len : length (NMDA.post_ids self) = NMDA.size self.
Hypothesis g_len : length (NMDA.g self) = NMDA.size self.
Hypothesis pre_range :
  Forall (fun i => (i < length delayed)%nat) (NMDA.pre_ids self).
Hypothesis post_range :
  Forall (fun j => (j < n_post)%nat) (NMDA.post_ids self).
Hypothesis V_len : length Vp = n_post.

(** one iteration: edge [i] adds the delayed spike of its source to [x[i]]
    and subtracts its current from [input[post_ids[i]]], nothing else *)
Lemma edge_ok (x inp : vec) (i : nat) :
  (i < NMDA.size self)%nat ->
  length x = NMDA.size self -> length inp = n_post ->
  let pre_id := nth i (NMDA.pre_ids self) 0%nat in
  let post_id := nth i (NMDA.post_ids self) 0%nat in
  NMDA.edge self delayed Vp (x, inp) i
  = Ok (upd x i (nth i x 0 + of_bool (nth pre_id delayed false)),
        upd inp post_id
          (nth post_id inp 0
           - NMDA.current self (nth i (NMDA.g self) 0) (nth post_id Vp 0))).
Proof.
  intros Hi Hx Hinp pre_id post_id.
  assert (pre_id < length delayed)%nat as Hpre.
  { rewrite Forall_forall in pre_range. apply pre_range, nth_In. lia. }
  assert (post_id < n_post)%nat as Hpost.
  { rewrite Forall_forall in post_range. apply post_range, nth_In. lia. }
  unfold NMDA.edge.
  rewrite (getitem_ok (NMDA.pre_ids self) i 0%nat) by lia. cbn [Py.bind].
  rewrite (getitem_ok (NMDA.post_ids self) i 0%nat) by lia. cbn [Py.bind].
  rewrite (getitem_ok x i 0) by lia. cbn [Py.bind].
  fold pre_id post_id.
  rewrite (getitem_ok delayed pre_id false Hpre). cbn [Py.bind].
  rewrite setitem_ok by lia. cbn [Py.bind].
  rewrite (getitem_ok Vp post_id 0) by lia. cbn [Py.bind].
  rewrite (getitem_ok inp post_id 0) by lia. cbn [Py.bind].
  rewrite (getitem_ok (NMDA.g self) i 0) by lia. cbn [Py.bind].
  rewrite setitem_ok by lia. cbn [Py.bind].
  reflexivity.
Qed.

End NMDAFacts.



(** ** GABAa: the output step *)




(** ** GABAa: the markov update *)

Lemma In_where_from (mask : list bool) (s i : nat) :
  In i (where_from s mask) <->
  (s <= i)%nat /\ nth (i - s) mask false = true.
Proof.
  revert s. induction mask as [|b t IH]; intros s.
  - simpl. split; [contradiction|].
    intros [_ H]. destruct (i - s)%nat; discriminate.
  - cbn [where_from].
    assert (In i (where_from (S s) t) <->
            (s < i)%nat /\ nth (i - s) (b :: t) false = true) as Htail.
    { rewrite IH. split; intros [Hle Hn]; (split; [lia|]).
      - replace (i - s)%nat with (S (i - S s)) by lia. exact Hn.
      - replace (i - s)%nat with (S (i - S s)) in Hn by lia. exact Hn. }
    destruct b.
    + cbn [In]. rewrite Htail. split.
      * intros [->|[Hlt Hn]]; [|split; [lia|exact Hn]].
        split; [lia|]. rewrite Nat.sub_diag. reflexivity.
      * intros [Hle Hn].
        destruct (Nat.eq_dec s i) as [Heq|Hne]; [left; exact Heq|].
        right. split; [lia|exact Hn].
    + rewrite Htail. split.
      * intros [Hlt Hn]. split; [lia|exact Hn].
      * intros [Hle Hn]. split; [|exact Hn].
        destruct (Nat.eq_dec s i) as [->|Hne]; [|lia].
        rewrite Nat.sub_diag in Hn. discriminate.
Qed.

Lemma Rltb_true (x y : R) : Rltb x y = true <-> x < y.
Proof.
  unfold Rltb. destruct (Rlt_dec x y); split; auto; discriminate.
Qed.

Lemma In_spiking (pre : GABAa.NeuState) (p : nat) :
  In p (GABAa.spiking pre) <->
  (p < length (GABAa.spike pre))%nat /\ nth p (GABAa.spike pre) 0 > 0.
Proof.
  unfold GABAa.spiking, where_. rewrite In_where_from, Nat.sub_0_r.
  split.
  - intros [_ Hn].
    destruct (Nat.lt_ge_cases p (length (GABAa.spike pre))) as [Hp|Hp].
    + split; [exact Hp|].
      rewrite (nth_map_in _ (GABAa.spike pre) p 0 false Hp) in Hn.
      apply Rltb_true in Hn. exact Hn.
    + rewrite nth_overflow in Hn by (rewrite length_map; exact Hp).
      discriminate.
  - intros [Hp Hgt]. split; [lia|].
    rewrite (nth_map_in _ (GABAa.spike pre) p 0 false Hp).
    apply Rltb_true. exact Hgt.
Qed.

(** [a[ids] = c] overwrites exactly the cells named in [ids] *)
Lemma assign_fancy_ok (c : R) (ids : list nat) (a : vec) :
  Forall (fun k => (k < length a)%nat) ids ->
  exists a',
    GABAa.assign_fancy a ids c = Ok a' /\
    length a' = length a /\
    forall k,
      nth k a' 0 = if existsb (Nat.eqb k) ids then c else nth k a 0.
Proof.
  unfold GABAa.assign_fancy. revert a.
  induction ids as [|i t IH]; intros a Hids.
  - exists a. simpl. auto.
  - pose proof (Forall_inv Hids) as Hi. cbv beta in Hi.
    cbn [for_each]. rewrite setitem_ok by exact Hi. cbn [Py.bind].
    destruct (IH (upd a i c)) as (a' & Hrun & Hlen & Hnth).
    { rewrite length_upd. exact (Forall_inv_tail Hids). }
    exists a'. split; [exact Hrun|]. split.
    { rewrite Hlen. apply length_upd. }
    intros k. rewrite Hnth. cbn [existsb].
    destruct (Nat.eqb_spec k i) as [->|Hki].
    + cbn [orb]. destruct (existsb (Nat.eqb i) t); [reflexivity|].
      apply nth_upd_eq, Hi.
    + cbn [orb]. rewrite nth_upd_neq by congruence. reflexivity.
Qed.

(** the loop of [update] over the spiking pre-synaptic neurons *)
Lemma trigger_loop (pre2syn : list (list nat)) (_t_ : R) (l : list nat)
    (t_last : vec) :
  Forall (fun p => (p < length pre2syn)%nat) l ->
  Forall (Forall (fun k => (k < length t_last)%nat)) pre2syn ->
  exists t',
    for_each l
      (fun t_last pre_id =>
         syn_ids <- getitem pre2syn pre_id ;;
         GABAa.assign_fancy t_last syn_ids _t_) t_last = Ok t' /\
    length t' = length t_last /\
    forall k,
      nth k t' 0 = if reached pre2syn l k then _t_ else nth k t_last 0.
Proof.
  revert t_last. induction l as [|p t IH]; intros t_last Hl Hids.
  - exists t_last. simpl. auto.
  - pose proof (Forall_inv Hl) as Hp. cbv beta in Hp.
    cbn [for_each]. rewrite (getitem_ok pre2syn p [] Hp). cbn [Py.bind].
    destruct (assign_fancy_ok _t_ (nth p pre2syn []) t_last)
      as (t1 & Hrun1 & Hlen1 & Hnth1).
    { rewrite Forall_forall in Hids. apply Hids, nth_In, Hp. }
    rewrite Hrun1. cbn [Py.bind].
    destruct (IH t1 (Forall_inv_tail Hl)) as (t' & Hrun & Hlen & Hnth).
    { rewrite Hlen1. exact Hids. }
    exists t'. split; [exact Hrun|]. split; [congruence|].
    intros k. rewrite Hnth, Hnth1. unfold reached. cbn [existsb].
    destruct (existsb (Nat.eqb k) (nth p pre2syn []));
      destruct (existsb _ t); reflexivity.
Qed.

Lemma reached_triggered (pre : GABAa.NeuState) (pre2syn : list (list nat))
    (k : nat) :
  reached pre2syn (GABAa.spiking pre) k = true <-> triggered pre pre2syn k.
Proof.
  unfold reached, triggered. rewrite existsb_exists. split.
  - intros (p & Hp & Hk). apply In_spiking in Hp. destruct Hp as [Hlt Hgt].
    apply existsb_exists in Hk. destruct Hk as (k' & Hin & Heq).
    apply Nat.eqb_eq in Heq. subst k'. exists p. auto.
  - intros (p & Hlt & Hgt & Hin). exists p. split.
    + apply In_spiking. auto.
    + apply existsb_exists. exists k. split; [exact Hin|].
      apply Nat.eqb_refl.
Qed.

(** ** ExpCUBA: the dense update *)

(** [ExpCUBA._dense_update] has no statement on [post]: whenever it
    returns, the post-synaptic group is the one it was given. *)
Lemma dense_update_keeps_post (self self' : Exponential.ExpCUBA)
    (pre post post' : NeuGroup) (_t _dt : R) :
  Exponential._dense_update self pre post _t _dt = Ok (self', post') ->
  post' = post.
Proof.
  unfold Exponential._dense_update.
  destruct (Exponential.store self) as [| conn_mat size g]; [discriminate|].
  intros H.
  apply bind_ok in H. destruct H as (dl & _ & H).
  apply bind_ok in H. destruct H as (g' & _ & H).
  congruence.
Qed.

(** * Main results *)

(** C7, as stated, fails for the forward Euler step of [get_GABAa1.int_s]:
    with [tau_decay = 6], [dt = 12] and [s = 1] the step returns [-1]. *)
Lemma euler_decay_step_overshoots :
  (0 < 6 /\ 0 < 12 /\ 0 < 1) /\
  GABAa.int_s1 6 12 1 0 = -1 /\
  ~ (0 < GABAa.int_s1 6 12 1 0 < 1).
Proof.
  assert (GABAa.int_s1 6 12 1 0 = -1) as Hv.
  { unfold GABAa.int_s1, Integrators.euler. lra. }
  repeat split; lra.
Qed.

(** C7, amended.  For every [tau > 0], [dt > 0] and gating value [g > 0],
    repeated steps of [ExpCUBA.integral] (exponential Euler) with no spike
    drive stay strictly positive, strictly decrease at every step, and fall
    below every positive bound; the forward Euler step [int_s] of
    [get_GABAa1] does so exactly when [dt < tau_decay]: for
    [dt >= tau_decay] one step already returns a value that is not
    positive. *)
Theorem decay_step_monotone (tau dt g : R) :
  0 < tau -> 0 < dt -> 0 < g ->
  (forall self t,
     Exponential.tau self = tau ->
     let step := fun y => Exponential.integral self y t dt in
     (forall n, 0 < repeat_step step (S n) g < repeat_step step n g) /\
     (forall eps, 0 < eps ->
        exists N, forall n, (N <= n)%nat -> repeat_step step n g < eps)) /\
  (dt < tau ->
   forall t,
     let step := fun y => GABAa.int_s1 tau dt y t in
     (forall n, 0 < repeat_step step (S n) g < repeat_step step n g) /\
     (forall eps, 0 < eps ->
        exists N, forall n, (N <= n)%nat -> repeat_step step n g < eps)) /\
  (tau <= dt -> forall t, GABAa.int_s1 tau dt g t <= 0).
Proof.
  intros Htau Hdt Hg. split; [|split].
  - intros self t Hself step.
    destruct (exp_euler_factor tau dt Htau Hdt) as [Hq0 Hq1].
    apply (linear_step_decays (exp (- 1 / tau * dt)) Hq0 Hq1); [|exact Hg].
    intros y. unfold step. rewrite integral_linear, Hself. reflexivity.
  - intros Hlt t step.
    destruct (euler_factor tau dt Hdt Hlt) as [Hq0 Hq1].
    apply (linear_step_decays (1 - dt / tau) Hq0 Hq1); [|exact Hg].
    intros y. unfold step. apply int_s1_linear.
  - intros Hge t. rewrite int_s1_linear.
    assert (1 <= dt / tau) as Hq.
    { apply (Rmult_le_reg_r tau); [exact Htau|].
      unfold Rdiv. rewrite Rmult_assoc, Rinv_l by lra. lra. }
    nra.
Qed.

Lemma decay_step_monotone_witness :
  0 < Exponential.integral (Sample.cuba 8) 1 0 1 < 1 /\
  0 < GABAa.int_s1 6 1 1 0 < 1 /\
  GABAa.int_s1 6 12 1 0 <= 0.
Proof.
  assert (0 < 8) as H8 by lra.
  assert (0 < 6) as H6 by lra.
  assert (0 < 1) as H1 by lra.
  assert (0 < 12) as H12 by lra.
  assert (1 < 6) as H16 by lra.
  assert (6 <= 12) as H612 by lra.
  split; [|split].
  - exact (proj1 (proj1 (decay_step_monotone 8 1 1 H8 H1 H1)
                    (Sample.cuba 8) 0 eq_refl) 0%nat).
  - exact (proj1 (proj1 (proj2 (decay_step_monotone 6 1 1 H6 H1 H1)) H16 0)
             0%nat).
  - exact (proj2 (proj2 (decay_step_monotone 6 12 1 H6 H12 H1)) H612 0).
Defined.

(** C9.  For an NMDA synapse with [cc_Mg > 0] and [beta > 0] and every
    post-synaptic voltage [v], the magnesium-block factor
    [g_inf = 1 + cc_Mg / beta * exp (- alpha * v)] is strictly greater than
    1; the divisor of the coupling step is never zero. *)
Theorem g_inf_above_one (self : NMDA.NMDA) (v : R) :
  0 < NMDA.cc_Mg self -> 0 < NMDA.beta self ->
  1 < NMDA.g_inf self v /\ NMDA.g_inf self v <> 0.
Proof.
  intros Hc Hb.
  assert (1 < NMDA.g_inf self v) as H.
  { unfold NMDA.g_inf.
    assert (0 < NMDA.cc_Mg self / NMDA.beta self)
      by (apply Rdiv_lt_0_compat; assumption).
    pose proof (exp_pos (- NMDA.alpha self * v)).
    assert (0 < NMDA.cc_Mg self / NMDA.beta self
                * exp (- NMDA.alpha self * v))
      by (apply Rmult_lt_0_compat; assumption).
    lra. }
  split; [exact H | lra].
Qed.

Lemma g_inf_above_one_witness : 1 < NMDA.g_inf Sample.nmda (-65).
Proof.
  assert (0 < NMDA.cc_Mg Sample.nmda) as Hc by (simpl; lra).
  assert (0 < NMDA.beta Sample.nmda) as Hb by (simpl; lra).
  exact (proj1 (g_inf_above_one Sample.nmda (-65) Hc Hb)).
Defined.

(** C10.  Every per-tick neuron update ends with the input accumulator equal
    to 0: [update] of [get_AdQuaIF] on every call, also inside the refractory
    period, where [V] and [w] are left as they are; [FHN.update] on every
    group whose arrays have the shape of the group, which the update
    preserves. *)
Theorem update_resets_input :
  (forall a b a_0 V_c V_rest V_reset V_th Rm tau tau_w t_refractory noise
          integrate2 integrate1 ST _t,
     let ST' := AdQuaIF.update a b a_0 V_c V_rest V_reset V_th Rm tau tau_w
                  t_refractory noise integrate2 integrate1 ST _t in
     AdQuaIF.input ST' = 0 /\
     (_t - AdQuaIF.t_last_spike ST <= t_refractory ->
      AdQuaIF.V ST' = AdQuaIF.V ST /\ AdQuaIF.w ST' = AdQuaIF.w ST /\
      AdQuaIF.refractory ST' = 1)) /\
  (forall odeint self _t _dt,
     FHN_wf self ->
     exists self',
       FHN.update odeint self _t _dt = Ok self' /\
       FHN.input self' = zeros (length (FHN.input self)) /\
       FHN_wf self').
Proof.
  split.
  - intros. subst ST'. split; [reflexivity|].
    intros Hle. unfold AdQuaIF.update, Rleb.
    cbn [AdQuaIF.t_last_spike].
    destruct (Rle_dec (_t - AdQuaIF.t_last_spike ST) t_refractory) as [Hr|Hr];
      [cbn; auto | contradiction].
  - intros odeint self _t _dt Hwf. apply FHN_update_ok, Hwf.
Qed.

Lemma update_resets_input_witness :
  AdQuaIF.input
    (AdQuaIF.update 1 0.1 0.07 (-50) (-65) (-68) (-30) 1 10 10 5 0
       Sample.euler_V Sample.euler_w Sample.adquaif_ST 5) = 0 /\
  exists self',
    FHN.update Sample.euler_fhn Sample.fhn 0 0.1 = Ok self' /\
    FHN.input self' = [0; 0].
Proof.
  split.
  - exact (proj1 (proj1 update_resets_input 1 0.1 0.07 (-50) (-65) (-68)
                    (-30) 1 10 10 5 0 Sample.euler_V Sample.euler_w
                    Sample.adquaif_ST 5)).
  - destruct (proj2 update_resets_input Sample.euler_fhn Sample.fhn 0 0.1
                (FHN_init_wf 2 0.7 0.8 12.5 1.8)) as (self' & Hu & Hi & _).
    exists self'. split; [exact Hu | exact Hi].
Defined.

(** C6, as stated, fails: with a zero time constant the three constructors
    return the object, with the zero stored in it. *)
Lemma zero_tau_constructs :
  (exists self,
     Exponential.__init__ Sample.pre1 Sample.post1 Sample.conn1 1 0 0 "sparse"
     = Ok self /\ Exponential.tau self = 0) /\
  (exists self,
     Exponential.COBA__init__ Sample.pre1 Sample.post1 Sample.conn1
       1 0 0 0 "sparse"
     = Ok self /\ Exponential.tau (Exponential.base self) = 0) /\
  (exists self,
     NMDA.__init__ Sample.pre1 Sample.post1 Sample.conn1 0
       0.15 0 1.2 0.062 3.57 0 0.5 0 "sparse"
     = Ok self /\ NMDA.tau_decay self = 0 /\ NMDA.tau_rise self = 0).
Proof.
  repeat split; eexists; (split; [reflexivity|]); cbn; auto.
Qed.

(** C6, amended.  The constructors do not inspect the time constants:
    whether a construction returns or raises, and the exception it raises,
    is the same for every value of [tau] (of [tau_decay] and [tau_rise] for
    NMDA), zero included; when it returns, the object stores the time
    constants it was given and is otherwise the same object. *)
Theorem construction_ignores_time_constants
    (pre post : PyObj) (conn : Conn) (delay : nat)
    (g_max E cc_Mg alpha beta a : R) (update_type : string)
    (tau tau' tau_decay tau_decay' tau_rise tau_rise' : R) :
  match Exponential.__init__ pre post conn g_max delay tau update_type,
        Exponential.__init__ pre post conn g_max delay tau' update_type with
  | Ok self, Ok self' =>
      Exponential.tau self = tau /\ Exponential.tau self' = tau' /\
      Exponential.delay self' = Exponential.delay self /\
      Exponential.g_max self' = Exponential.g_max self /\
      Exponential.store self' = Exponential.store self /\
      Exponential.pre_spike self' = Exponential.pre_spike self
  | Raise e, Raise e' => e = e'
  | _, _ => False
  end /\
  match Exponential.COBA__init__ pre post conn g_max delay tau E update_type,
        Exponential.COBA__init__ pre post conn g_max delay tau' E update_type
  with
  | Ok self, Ok self' =>
      Exponential.tau (Exponential.base self) = tau /\
      Exponential.tau (Exponential.base self') = tau' /\
      Exponential.delay (Exponential.base self')
      = Exponential.delay (Exponential.base self) /\
      Exponential.g_max (Exponential.base self')
      = Exponential.g_max (Exponential.base self) /\
      Exponential.store (Exponential.base self')
      = Exponential.store (Exponential.base self) /\
      Exponential.pre_spike (Exponential.base self')
      = Exponential.pre_spike (Exponential.base self) /\
      Exponential.E self' = Exponential.E self /\
      Exponential.pre_ids self' = Exponential.pre_ids self
  | Raise e, Raise e' => e = e'
  | _, _ => False
  end /\
  match NMDA.__init__ pre post conn delay g_max E cc_Mg alpha beta tau_decay
          a tau_rise update_type,
        NMDA.__init__ pre post conn delay g_max E cc_Mg alpha beta tau_decay'
          a tau_rise' update_type with
  | Ok self, Ok self' =>
      NMDA.tau_decay self = tau_decay /\ NMDA.tau_rise self = tau_rise /\
      NMDA.tau_decay self' = tau_decay' /\ NMDA.tau_rise self' = tau_rise' /\
      NMDA.g_max self' = NMDA.g_max self /\ NMDA.E self' = NMDA.E self /\
      NMDA.alpha self' = NMDA.alpha self /\
      NMDA.beta self' = NMDA.beta self /\
      NMDA.cc_Mg self' = NMDA.cc_Mg self /\ NMDA.a self' = NMDA.a self /\
      NMDA.delay self' = NMDA.delay self /\
      NMDA.pre_ids self' = NMDA.pre_ids self /\
      NMDA.post_ids self' = NMDA.post_ids self /\
      NMDA.size self' = NMDA.size self /\
      NMDA.pre_spike self' = NMDA.pre_spike self /\
      NMDA.g self' = NMDA.g self /\ NMDA.x self' = NMDA.x self
  | Raise e, Raise e' => e = e'
  | _, _ => False
  end.
Proof.
  unfold Exponential.COBA__init__, Exponential.__init__, NMDA.__init__,
    assert_.
  destruct (hasattr pre "spike"), (hasattr post "input"), (hasattr post "V"),
    (String.eqb update_type "sparse"), (String.eqb update_type "dense");
    cbn; repeat split; reflexivity.
Qed.

(** C1, evaluated.  One pre-synaptic neuron connected to one post-synaptic
    neuron, as the edge list [0 -> 0] and as the matrix [[1]]; the
    pre-synaptic neuron spikes, [post.input] starts at [[0]].  After one
    tick the sparse update has added [g_max = 1] to [post.input], and the
    dense update, which has no statement writing [post.input], has left it
    at [[0]]. *)
Theorem sparse_dense_inputs_differ (_dt : R) :
  (exists s s' post',
     Exponential.__init__ Sample.pre1 Sample.post1 Sample.conn1 1 0 8 "sparse"
     = Ok s /\
     Exponential.update s Sample.pre1 Sample.post1 0 _dt = Ok (s', post') /\
     input post' = [1]) /\
  (exists d d' post',
     Exponential.__init__ Sample.pre1 Sample.post1 Sample.conn1 1 0 8 "dense"
     = Ok d /\
     Exponential.update d Sample.pre1 Sample.post1 0 _dt = Ok (d', post') /\
     input post' = [0]).
Proof.
  split.
  - do 3 eexists. split; [reflexivity|]. split; [cbn; reflexivity|].
    cbn. f_equal.
    unfold Exponential.integral, Integrators.exponential_euler. ring.
  - do 3 eexists. split; [reflexivity|]. split; [cbn; reflexivity|].
    reflexivity.
Qed.

(** C2, evaluated.  One spiking pre-synaptic neuron with an edge to each of
    two post-synaptic neurons at [V = -65], [E = 0], [post.input = [0; 0]].
    [ExpCOBA._sparse_update] adds to each cell the contribution of the edge
    into it, [1 * (0 - (-65))].  [ExpCOBA._loop_update] on the same object
    raises at its first iteration, because [pre_ids] is never assigned; and
    with [pre_ids] set by hand it raises when it stores the whole array
    [self.g * (self.E - self.post.V)] into the cell [input[post_i]]. *)
Theorem loop_update_raises (_dt : R) :
  (exists self,
     Exponential.COBA__init__ Sample.pre1 Sample.post2 Sample.conn2
       1 0 8 0 "sparse" = Ok self /\
     (exists self' post',
        Exponential.COBA_sparse_update self Sample.pre1 Sample.post2 0 _dt
        = Ok (self', post') /\ input post' = [65; 65]) /\
     Exponential._loop_update self Sample.pre1 Sample.post2 0 _dt
     = Raise AttributeError) /\
  Exponential._loop_update Sample.coba2 Sample.pre1 Sample.post2 0 _dt
  = Raise ValueError.
Proof.
  split.
  - eexists. split; [reflexivity|]. split.
    + do 2 eexists. split; [cbn; reflexivity|].
      cbn. unfold Exponential.integral, Integrators.exponential_euler.
      f_equal; [ring | f_equal; ring].
    + reflexivity.
  - apply (loop_update_whole_array Sample.coba2 Sample.pre1 Sample.post2 0 _dt
             [(0, 2)%nat] [0%nat; 1%nat] [0%nat; 0%nat] 2 [0; 0]);
      try reflexivity; cbn; try lia.
    unfold sparse_wf, delay_wf. cbn.
    repeat split; auto; repeat constructor; lia.
Qed.





(** C8.  One tick of [update] of [get_GABAa2] on a well-shaped state:
    [t_last_pre_spike] becomes the current time [_t_] for exactly the
    synapses whose source neuron spikes this tick and is unchanged for the
    others; with it, [TT] is [T] where [_t_ - t_last_pre_spike < T_duration]
    and [0] elsewhere, and every synapse takes the step
    [s <- s + dt * (alpha * TT * (1 - s) - beta * s)], with [g = g_max * s]. *)
Theorem GABAa2_update_rule (g_max alpha beta T T_duration dt : R)
    (ST : GABAa.SynState) (pre : GABAa.NeuState)
    (pre2syn : list (list nat)) (_t_ : R) :
  update_wf ST pre pre2syn ->
  exists ST',
    GABAa.update2 g_max alpha beta T T_duration dt ST pre pre2syn _t_
    = Ok ST' /\
    length (GABAa.s ST') = length (GABAa.s ST) /\
    forall k, (k < length (GABAa.s ST))%nat ->
      let t_last := nth k (GABAa.t_last_pre_spike ST') 0 in
      let TT := if Rlt_dec (_t_ - t_last) T_duration then T else 0 in
      let s := nth k (GABAa.s ST) 0 in
      (triggered pre pre2syn k -> t_last = _t_) /\
      (~ triggered pre pre2syn k ->
       t_last = nth k (GABAa.t_last_pre_spike ST) 0) /\
      nth k (GABAa.s ST') 0
      = s + dt * (alpha * TT * (1 - s) - beta * s) /\
      nth k (GABAa.g ST') 0 = g_max * nth k (GABAa.s ST') 0.
Proof.
  intros (Hlen & Hp2s & Hids).
  destruct (trigger_loop pre2syn _t_ (GABAa.spiking pre)
              (GABAa.t_last_pre_spike ST))
    as (t' & Hrun & Hlen' & Hnth).
  { apply Forall_forall. intros p Hp. apply In_spiking in Hp. lia. }
  { rewrite Hlen. exact Hids. }
  set (s' := zip_with (fun s TT => GABAa.int_s2 alpha beta dt s _t_ TT)
               (GABAa.s ST) (map (GABAa.transmitter T T_duration _t_) t')).
  assert (length s' = length (GABAa.s ST)) as Hs'
    by (unfold s'; rewrite length_zip_with, length_map; lia).
  exists {| GABAa.s := s'; GABAa.g := map (fun s => g_max * s) s';
            GABAa.t_last_pre_spike := t' |}.
  split.
  - unfold GABAa.update2. rewrite Hrun. reflexivity.
  - split; [exact Hs'|].
    intros k Hk t_last TT s.
    cbn [GABAa.s GABAa.g GABAa.t_last_pre_spike] in *.
    assert (t_last = if reached pre2syn (GABAa.spiking pre) k
                     then _t_ else nth k (GABAa.t_last_pre_spike ST) 0)
      as Ht by apply Hnth.
    split; [|split; [|split]].
    + intros Htr. apply reached_triggered in Htr.
      rewrite Ht, Htr. reflexivity.
    + intros Htr. rewrite Ht.
      destruct (reached pre2syn (GABAa.spiking pre) k) eqn:Hr;
        [|reflexivity].
      apply reached_triggered in Hr. contradiction.
    + unfold s'.
      rewrite (nth_zip_with _ _ _ k 0 0) by (rewrite ?length_map; lia).
      rewrite (nth_map_in _ t' k 0 0) by lia.
      fold t_last s.
      unfold GABAa.int_s2, Integrators.euler, GABAa.transmitter, TT,
        Rltb, of_bool.
      destruct (Rlt_dec (_t_ - t_last) T_duration); ring.
    + rewrite (nth_map_in _ s' k 0 0) by lia. reflexivity.
Qed.

Lemma GABAa2_update_rule_witness :
  exists ST',
    GABAa.update2 0.04 0.53 0.18 1 1 0.1 Sample.gaba_ST Sample.gaba_pre
      Sample.gaba_pre2syn 5 = Ok ST' /\
    length (GABAa.s ST') = 2%nat.
Proof.
  assert (update_wf Sample.gaba_ST Sample.gaba_pre Sample.gaba_pre2syn)
    as Hwf.
  { unfold update_wf. cbn. repeat split; auto; repeat constructor. }
  destruct (GABAa2_update_rule 0.04 0.53 0.18 1 1 0.1 Sample.gaba_ST
              Sample.gaba_pre Sample.gaba_pre2syn 5 Hwf)
    as (ST' & Hrun & Hlen & _).
  exists ST'. split; [exact Hrun | exact Hlen].
Defined.

(** * Further properties of the update rules *)

(** ** FHN: threshold crossings *)

Lemma Rleb_true (x y : R) : Rleb x y = true <-> x <= y.
Proof.
  unfold Rleb. destruct (Rle_dec x y); split; auto; discriminate.
Qed.

Section FHNStep.
Variable odeint :
  (R -> R -> R -> R -> R * R) -> R -> R -> R -> R -> R -> R * R.

(** the whole effect of [FHN.update] on a group of well-shaped arrays *)
Lemma FHN_update_result (self : FHN.FHN) (t dt : R) :
  FHN_wf self ->
  let r := FHN.integral odeint self (FHN.V self) (FHN.w self) t
                        (FHN.input self) dt in
  let spike' := zip_with (fun v' v => Rgeb v' (FHN.Vth self)
                                      && Rltb v (FHN.Vth self))
                         (map fst r) (FHN.V self) in
  FHN.update odeint self t dt
  = Ok {| FHN.a := FHN.a self; FHN.b := FHN.b self; FHN.tau := FHN.tau self;
          FHN.Vth := FHN.Vth self;
          FHN.V := map fst r; FHN.w := map snd r;
          FHN.input := fill (FHN.input self) 0;
          FHN.spike := spike';
          FHN.t_last_spike :=
            zip_with (fun (sp : bool) tl => if sp then t else tl)
                     spike' (FHN.t_last_spike self) |}.
Proof.
  intros Hwf r spike'.
  pose proof (length_integral odeint self t dt Hwf) as Hr. fold r in Hr.
  destruct Hwf as (Hw & Hi & Hs & Ht).
  unfold FHN.update. fold r.
  rewrite assign_all_same by (rewrite length_map; lia).
  cbn [Py.bind].
  rewrite assign_all_same
    by (rewrite length_zip_with, length_map; lia).
  cbn [Py.bind]. fold spike'.
  rewrite assign_all_same
    by (unfold spike'; rewrite !length_zip_with, length_map; lia).
  cbn [Py.bind].
  rewrite assign_all_same by (rewrite length_map; lia).
  reflexivity.
Qed.

Lemma nth_integral (self : FHN.FHN) (t dt : R) (i : nat) :
  FHN_wf self -> (i < length (FHN.V self))%nat ->
  nth i (FHN.integral odeint self (FHN.V self) (FHN.w self) t
                      (FHN.input self) dt) (0, 0)
  = odeint (FHN.derivative self) (nth i (FHN.V self) 0)
           (nth i (FHN.w self) 0) t (nth i (FHN.input self) 0) dt.
Proof.
  intros (Hw & Hi & _) Hlt. unfold FHN.integral.
  rewrite (nth_zip_with _ _ _ i (0, 0) 0)
    by (rewrite ?length_zip_with; lia).
  rewrite (nth_zip_with pair _ _ i 0 0) by lia.
  reflexivity.
Qed.

(** cell by cell: the new potential, the spike flag and the spike time *)
Lemma FHN_update_cells (self : FHN.FHN) (t dt : R) :
  FHN_wf self ->
  exists self',
    FHN.update odeint self t dt = Ok self' /\
    FHN_wf self' /\
    length (FHN.V self') = length (FHN.V self) /\
    FHN.Vth self' = FHN.Vth self /\
    forall i, (i < length (FHN.V self))%nat ->
      nth i (FHN.V self') 0
      = fst (odeint (FHN.derivative self) (nth i (FHN.V self) 0)
                    (nth i (FHN.w self) 0) t (nth i (FHN.input self) 0) dt) /\
      nth i (FHN.spike self') false
      = (Rgeb (nth i (FHN.V self') 0) (FHN.Vth self)
         && Rltb (nth i (FHN.V self) 0) (FHN.Vth self))%bool /\
      nth i (FHN.t_last_spike self') 0
      = if nth i (FHN.spike self') false then t
        else nth i (FHN.t_last_spike self) 0.
Proof.
  intros Hwf.
  pose proof (FHN_update_result self t dt Hwf) as Hres. cbv zeta in Hres.
  pose proof (length_integral odeint self t dt Hwf) as Hr.
  pose proof (fun i => nth_integral self t dt i Hwf) as Hcell.
  set (r := FHN.integral odeint self (FHN.V self) (FHN.w self) t
                         (FHN.input self) dt) in *.
  destruct Hwf as (Hw & Hi & Hs & Ht).
  eexists. split; [exact Hres|].
  cbn [FHN.V FHN.w FHN.input FHN.spike FHN.t_last_spike FHN.Vth].
  split.
  { unfold FHN_wf.
    cbn [FHN.V FHN.w FHN.input FHN.spike FHN.t_last_spike].
    rewrite length_fill, !length_zip_with, !length_map. lia. }
  split; [rewrite length_map; exact Hr|]. split; [reflexivity|].
  intros i Hlt.
  assert (nth i (map fst r) 0 = fst (nth i r (0, 0))) as Hv
    by (apply nth_map_in; lia).
  assert (nth i (zip_with (fun v' v => Rgeb v' (FHN.Vth self)
                                       && Rltb v (FHN.Vth self))
                          (map fst r) (FHN.V self)) false
          = (Rgeb (nth i (map fst r) 0) (FHN.Vth self)
             && Rltb (nth i (FHN.V self) 0) (FHN.Vth self))%bool) as Hsp
    by (rewrite (nth_zip_with _ _ _ i 0 0) by (rewrite ?length_map; lia);
        reflexivity).
  split; [rewrite Hv, Hcell by exact Hlt; reflexivity|].
  split; [exact Hsp|].
  rewrite (nth_zip_with _ _ _ i false 0)
    by (rewrite ?length_zip_with, ?length_map; lia).
  reflexivity.
Qed.
End FHNStep.

(** X1.  [FHN.update] on a group of well-shaped arrays returns, and for
    every neuron [i] the spike flag is set exactly when the potential
    crosses the threshold from below in this step (new [V[i] >= Vth], old
    [V[i] < Vth]); [t_last_spike[i]] becomes the current time exactly for
    the neurons that spike and is kept for the others. *)
Theorem FHN_spike_marks_upward_crossing
    (odeint : (R -> R -> R -> R -> R * R) -> R -> R -> R -> R -> R -> R * R)
    (self : FHN.FHN) (_t _dt : R) :
  FHN_wf self ->
  exists self',
    FHN.update odeint self _t _dt = Ok self' /\
    forall i, (i < length (FHN.V self))%nat ->
      (nth i (FHN.spike self') false = true <->
       FHN.Vth self <= nth i (FHN.V self') 0 /\
       nth i (FHN.V self) 0 < FHN.Vth self) /\
      (nth i (FHN.spike self') false = true ->
       nth i (FHN.t_last_spike self') 0 = _t) /\
      (nth i (FHN.spike self') false = false ->
       nth i (FHN.t_last_spike self') 0 = nth i (FHN.t_last_spike self) 0).
Proof.
  intros Hwf.
  destruct (FHN_update_cells odeint self _t _dt Hwf)
    as (self' & Hrun & _ & _ & _ & Hcells).
  exists self'. split; [exact Hrun|].
  intros i Hi. destruct (Hcells i Hi) as (_ & Hsp & Ht).
  split; [|split].
  - rewrite Hsp, andb_true_iff. unfold Rgeb.
    rewrite Rleb_true, Rltb_true. reflexivity.
  - intros H. rewrite Ht, H. reflexivity.
  - intros H. rewrite Ht, H. reflexivity.
Qed.

Lemma FHN_spike_marks_upward_crossing_witness :
  exists self',
    FHN.update Sample.euler_fhn Sample.fhn 0 0.1 = Ok self' /\
    (nth 0 (FHN.spike self') false = false ->
     nth 0 (FHN.t_last_spike self') 0 = -1e7).
Proof.
  destruct (FHN_spike_marks_upward_crossing Sample.euler_fhn Sample.fhn 0 0.1
              (FHN_init_wf 2 0.7 0.8 12.5 1.8)) as (self' & Hrun & Hc).
  exists self'. split; [exact Hrun|].
  apply (Hc 0%nat). cbn. lia.
Defined.

(** X2.  No neuron of an [FHN] group spikes on two updates in a row: a
    neuron flagged by one update has its potential at or above the
    threshold, so the next update, whatever was written to [input] in
    between, cannot see it cross from below. *)
Theorem FHN_no_spike_twice_in_a_row
    (odeint : (R -> R -> R -> R -> R * R) -> R -> R -> R -> R -> R -> R * R)
    (s0 : FHN.FHN) (t0 dt0 : R) :
  FHN_wf s0 ->
  exists s1,
    FHN.update odeint s0 t0 dt0 = Ok s1 /\ FHN_wf s1 /\
    forall s1' t1 dt1,
      FHN_wf s1' -> FHN.V s1' = FHN.V s1 -> FHN.Vth s1' = FHN.Vth s1 ->
      exists s2,
        FHN.update odeint s1' t1 dt1 = Ok s2 /\
        forall i, nth i (FHN.spike s1) false = true ->
                  nth i (FHN.spike s2) false = false.
Proof.
  intros Hwf0.
  destruct (FHN_update_cells odeint s0 t0 dt0 Hwf0)
    as (s1 & Hrun1 & Hwf1 & Hlen1 & Hth1 & Hcells1).
  exists s1. split; [exact Hrun1|]. split; [exact Hwf1|].
  intros s1' t1 dt1 Hwf1' HV HVth.
  destruct (FHN_update_cells odeint s1' t1 dt1 Hwf1')
    as (s2 & Hrun2 & Hwf2 & Hlen2 & Hth2 & Hcells2).
  exists s2. split; [exact Hrun2|].
  intros i Hsp.
  destruct (Nat.lt_ge_cases i (length (FHN.V s0))) as [Hi|Hi].
  - destruct (Hcells1 i Hi) as (_ & Hsp1 & _).
    rewrite Hsp1 in Hsp. apply andb_true_iff in Hsp.
    destruct Hsp as [Hge _]. unfold Rgeb in Hge. apply Rleb_true in Hge.
    assert (i < length (FHN.V s1'))%nat as Hi' by (rewrite HV; lia).
    destruct (Hcells2 i Hi') as (_ & Hsp2 & _).
    rewrite Hsp2, HV, HVth, Hth1.
    assert (Rltb (nth i (FHN.V s1) 0) (FHN.Vth s0) = false) as ->.
    { destruct (Rltb (nth i (FHN.V s1) 0) (FHN.Vth s0)) eqn:Hlt;
        [|reflexivity].
      apply Rltb_true in Hlt. lra. }
    apply andb_false_r.
  - destruct Hwf1 as (_ & _ & Hs1 & _).
    rewrite nth_overflow in Hsp by lia. discriminate.
Qed.

Lemma FHN_no_spike_twice_in_a_row_witness :
  exists s1,
    FHN.update Sample.euler_fhn Sample.fhn 0 0.1 = Ok s1 /\
    exists s2, FHN.update Sample.euler_fhn s1 0.1 0.1 = Ok s2.
Proof.
  destruct (FHN_no_spike_twice_in_a_row Sample.euler_fhn Sample.fhn 0 0.1
              (FHN_init_wf 2 0.7 0.8 12.5 1.8)) as (s1 & Hrun & Hwf & Hnext).
  exists s1. split; [exact Hrun|].
  destruct (Hnext s1 0.1 0.1 Hwf eq_refl eq_refl) as (s2 & Hrun2 & _).
  exists s2. exact Hrun2.
Defined.

(** ** AdQuaIF: spikes, reset and the refractory period *)

Section AdQuaIFFacts.
Variables a b a_0 V_c V_rest V_reset V_th Rm tau tau_w : R.
Variables t_refractory noise : R.
Variable integrate2 : (R -> R -> R -> R -> R * R) -> R -> R -> R -> R -> R.
Variable integrate1 : (R -> R -> R -> R * R) -> R -> R -> R -> R.

Let update := AdQuaIF.update a b a_0 V_c V_rest V_reset V_th Rm tau tau_w
                t_refractory noise integrate2 integrate1.
Let int_w := AdQuaIF.int_w a V_rest tau_w noise integrate1.
Let int_V := AdQuaIF.int_V a_0 V_c V_rest Rm tau noise integrate2.

(** the three ways through [update] *)
Lemma AdQuaIF_update_cases (ST : AdQuaIF.NeuState) (_t : R) :
  let ST' := update ST _t in
  let w1 := int_w (AdQuaIF.w ST) _t (AdQuaIF.V ST) in
  let V1 := int_V (AdQuaIF.V ST) _t w1 (AdQuaIF.input ST) in
  (_t - AdQuaIF.t_last_spike ST <= t_refractory /\
   ST' = {| AdQuaIF.V := AdQuaIF.V ST; AdQuaIF.w := AdQuaIF.w ST;
            AdQuaIF.input := 0; AdQuaIF.spike := 0;
            AdQuaIF.refractory := 1;
            AdQuaIF.t_last_spike := AdQuaIF.t_last_spike ST |}) \/
  (~ _t - AdQuaIF.t_last_spike ST <= t_refractory /\ V_th <= V1 /\
   ST' = {| AdQuaIF.V := V_reset; AdQuaIF.w := w1 + b;
            AdQuaIF.input := 0; AdQuaIF.spike := 1;
            AdQuaIF.refractory := 0; AdQuaIF.t_last_spike := _t |}) \/
  (~ _t - AdQuaIF.t_last_spike ST <= t_refractory /\ V1 < V_th /\
   ST' = {| AdQuaIF.V := V1; AdQuaIF.w := w1;
            AdQuaIF.input := 0; AdQuaIF.spike := 0;
            AdQuaIF.refractory := 0;
            AdQuaIF.t_last_spike := AdQuaIF.t_last_spike ST |}).
Proof.
  intros ST' w1 V1. subst ST' update.
  unfold AdQuaIF.update, Rleb, Rgeb, Rleb.
  cbn [AdQuaIF.V AdQuaIF.w AdQuaIF.input AdQuaIF.spike AdQuaIF.refractory
       AdQuaIF.t_last_spike].
  destruct (Rle_dec (_t - AdQuaIF.t_last_spike ST) t_refractory) as [Hr|Hr].
  - left. split; [exact Hr | reflexivity].
  - right. fold int_w int_V. fold w1. fold V1.
    destruct (Rle_dec V_th V1) as [Hs|Hs].
    + left. repeat split; auto.
    + right. repeat split; auto. lra.
Qed.
End AdQuaIFFacts.

Section AdQuaIFSpikes.
Variables a b a_0 V_c V_rest V_reset V_th Rm tau tau_w : R.
Variables t_refractory noise : R.
Variable integrate2 : (R -> R -> R -> R -> R * R) -> R -> R -> R -> R -> R.
Variable integrate1 : (R -> R -> R -> R * R) -> R -> R -> R -> R.

Let update := AdQuaIF.update a b a_0 V_c V_rest V_reset V_th Rm tau tau_w
                t_refractory noise integrate2 integrate1.

(** X3.  After a call of [update] that emits a spike at time [t0], a call
    at a time [t1] with [t1 - t0 <= t_refractory] holds the neuron: whatever
    input arrived in between, [V] stays at [V_reset], [w] and the spike time
    are kept, no spike is emitted, the refractory flag is set and the input
    is cleared. *)
Theorem AdQuaIF_refractory_hold (ST ST1 : AdQuaIF.NeuState) (t0 t1 : R) :
  AdQuaIF.spike (update ST t0) = 1 ->
  AdQuaIF.V ST1 = AdQuaIF.V (update ST t0) ->
  AdQuaIF.w ST1 = AdQuaIF.w (update ST t0) ->
  AdQuaIF.t_last_spike ST1 = AdQuaIF.t_last_spike (update ST t0) ->
  t1 - t0 <= t_refractory ->
  update ST1 t1
  = {| AdQuaIF.V := V_reset; AdQuaIF.w := AdQuaIF.w (update ST t0);
       AdQuaIF.input := 0; AdQuaIF.spike := 0; AdQuaIF.refractory := 1;
       AdQuaIF.t_last_spike := t0 |}.
Proof.
  intros Hsp HV Hw Ht Hle.
  assert (AdQuaIF.V (update ST t0) = V_reset /\
          AdQuaIF.t_last_spike (update ST t0) = t0) as [HV0 Ht0].
  { destruct (AdQuaIF_update_cases a b a_0 V_c V_rest V_reset V_th Rm tau
                tau_w t_refractory noise integrate2 integrate1 ST t0)
      as [[_ H]|[(_ & _ & H)|(_ & _ & H)]];
      fold update in H; rewrite H in Hsp |- *;
      cbn [AdQuaIF.spike AdQuaIF.V AdQuaIF.t_last_spike] in *;
      try lra; auto. }
  destruct (AdQuaIF_update_cases a b a_0 V_c V_rest V_reset V_th Rm tau
              tau_w t_refractory noise integrate2 integrate1 ST1 t1)
    as [[_ H]|[(Hn & _)|(Hn & _)]];
    try (rewrite Ht, Ht0 in Hn; contradiction).
  fold update in H. rewrite H, HV, Hw, Ht, HV0, Ht0. reflexivity.
Qed.

(** X4.  With [V_reset < V_th], [update] keeps the potential below the
    threshold: from a state with [V < V_th] it never returns a state with
    [V >= V_th], since a crossing is reset within the same call. *)
Theorem AdQuaIF_keeps_V_below_threshold (ST : AdQuaIF.NeuState) (_t : R) :
  V_reset < V_th -> AdQuaIF.V ST < V_th ->
  AdQuaIF.V (update ST _t) < V_th.
Proof.
  intros Hreset HV.
  destruct (AdQuaIF_update_cases a b a_0 V_c V_rest V_reset V_th Rm tau
              tau_w t_refractory noise integrate2 integrate1 ST _t)
    as [[_ H]|[(_ & _ & H)|(_ & Hlt & H)]];
    fold update in H; rewrite H; cbn [AdQuaIF.V]; assumption.
Qed.

(** X5.  The spike flag returned by [update] is 0 or 1.  When it is 1 the
    call happened outside the refractory period, [V] is [V_reset], the
    adaptation current is the integrated one plus [b], and [t_last_spike]
    is the current time; when it is 0, [t_last_spike] is unchanged. *)
Theorem AdQuaIF_spike_bookkeeping (ST : AdQuaIF.NeuState) (_t : R) :
  let ST' := update ST _t in
  (AdQuaIF.spike ST' = 1 /\
   ~ _t - AdQuaIF.t_last_spike ST <= t_refractory /\
   AdQuaIF.V ST' = V_reset /\
   AdQuaIF.w ST'
   = AdQuaIF.int_w a V_rest tau_w noise integrate1
       (AdQuaIF.w ST) _t (AdQuaIF.V ST) + b /\
   AdQuaIF.t_last_spike ST' = _t /\
   AdQuaIF.refractory ST' = 0) \/
  (AdQuaIF.spike ST' = 0 /\
   AdQuaIF.t_last_spike ST' = AdQuaIF.t_last_spike ST).
Proof.
  intros ST'. subst ST'.
  destruct (AdQuaIF_update_cases a b a_0 V_c V_rest V_reset V_th Rm tau
              tau_w t_refractory noise integrate2 integrate1 ST _t)
    as [[_ H]|[(Hn & _ & H)|(_ & _ & H)]];
    fold update in H; rewrite H;
    cbn [AdQuaIF.spike AdQuaIF.V AdQuaIF.w AdQuaIF.t_last_spike
         AdQuaIF.refractory]; auto.
  left. repeat split; auto.
Qed.
End AdQuaIFSpikes.

Lemma adquaif_driven_spikes :
  AdQuaIF.spike
    (AdQuaIF.update 1 0.1 0.07 (-50) (-65) (-68) (-30) 1 10 10 5 0
       Sample.euler_V Sample.euler_w Sample.adquaif_driven 0) = 1.
Proof.
  destruct (AdQuaIF_update_cases 1 0.1 0.07 (-50) (-65) (-68) (-30) 1 10 10
              5 0 Sample.euler_V Sample.euler_w Sample.adquaif_driven 0)
    as [[Hr _]|[(_ & _ & H)|(_ & Hlt & _)]].
  - cbn in Hr. lra.
  - rewrite H. reflexivity.
  - unfold AdQuaIF.int_V, AdQuaIF.int_w, Sample.euler_V, Sample.euler_w in Hlt.
    cbn in Hlt. lra.
Defined.

Lemma AdQuaIF_refractory_hold_witness :
  AdQuaIF.V
    (AdQuaIF.update 1 0.1 0.07 (-50) (-65) (-68) (-30) 1 10 10 5 0
       Sample.euler_V Sample.euler_w
       (AdQuaIF.update 1 0.1 0.07 (-50) (-65) (-68) (-30) 1 10 10 5 0
          Sample.euler_V Sample.euler_w Sample.adquaif_driven 0) 3) = -68.
Proof.
  assert (3 - 0 <= 5) as Hle by lra.
  rewrite (AdQuaIF_refractory_hold 1 0.1 0.07 (-50) (-65) (-68) (-30) 1 10 10
             5 0 Sample.euler_V Sample.euler_w Sample.adquaif_driven _ 0 3
             adquaif_driven_spikes eq_refl eq_refl eq_refl Hle).
  reflexivity.
Defined.

Lemma AdQuaIF_keeps_V_below_threshold_witness :
  AdQuaIF.V
    (AdQuaIF.update 1 0.1 0.07 (-50) (-65) (-68) (-30) 1 10 10 5 0
       Sample.euler_V Sample.euler_w Sample.adquaif_driven 0) < -30.
Proof.
  assert (-68 < -30) as H1 by lra.
  assert (AdQuaIF.V Sample.adquaif_driven < -30) as H2 by (cbn; lra).
  exact (AdQuaIF_keeps_V_below_threshold 1 0.1 0.07 (-50) (-65) (-68) (-30)
           1 10 10 5 0 Sample.euler_V Sample.euler_w Sample.adquaif_driven 0
           H1 H2).
Defined.

(** ** ExpCOBA: what one tick adds, and how synapses combine *)

(** The gating variable after the decay and the delivery of the delayed
    spikes; it does not depend on the post-synaptic group. *)
Lemma COBA_gating_step (self : Exponential.ExpCOBA) (pre : NeuGroup)
    (n_post : nat) (_t _dt : R)
    (pre_slice : list (nat * nat)) (post_ids : list nat) (size : nat)
    (g : vec) :
  Exponential.store (Exponential.base self)
  = Exponential.SparseStore pre_slice post_ids size g ->
  delay_wf (Exponential.pre_spike (Exponential.base self)) (num pre) ->
  length (spike pre) = num pre -> length pre_slice = num pre ->
  Forall (fun j => (j < n_post)%nat) post_ids -> length g = n_post ->
  exists dl g',
    DelayLine.push (Exponential.pre_spike (Exponential.base self)) (spike pre)
    = Ok dl /\
    delay_wf dl (num pre) /\
    length g' = n_post /\
    (forall j,
       nth j g' 0
       = nth j (map (fun y => Exponential.integral (Exponential.base self)
                                y _t _dt) g) 0
         + Exponential.g_max (Exponential.base self)
           * INR (count_occ Nat.eq_dec
                    (targets pre_slice post_ids (DelayLine.pull false dl)
                       (range (num pre))) j)) /\
    forall post,
      length (V post) = n_post -> length (input post) = n_post ->
      Exponential.COBA_sparse_update self pre post _t _dt
      = Ok (Exponential.with_base self
              (Exponential.with_state (Exponential.base self)
                 (Exponential.SparseStore pre_slice post_ids size g') dl),
            set_input post
              (zip_with Rplus (input post)
                 (zip_with Rmult g'
                    (map (fun v => Exponential.E self - v) (V post))))).
Proof.
  intros Hst Hdl Hsp Hps Hpost Hg.
  destruct (push_ok _ (spike pre) (num pre) Hdl Hsp) as (dl & Hpush & Hdl').
  pose proof (pull_length false dl (num pre) Hdl') as Hpull.
  set (g1 := map (fun y => Exponential.integral (Exponential.base self) y _t _dt) g).
  assert (length g1 = n_post) as Hg1
    by (unfold g1; rewrite length_map; exact Hg).
  destruct (spike_loop pre_slice post_ids (DelayLine.pull false dl)
              (Exponential.g_max (Exponential.base self))
              (range (num pre)) g1)
    as (g' & Hloop & Hlen' & Hnth').
  { rewrite Hg1. exact Hpost. }
  { rewrite Hpull, Hps. apply Forall_forall. intros p Hp.
    apply in_seq in Hp. lia. }
  exists dl, g'. split; [exact Hpush|]. split; [exact Hdl'|].
  split; [lia|]. split; [exact Hnth'|].
  intros post HV Hin.
  unfold Exponential.COBA_sparse_update. rewrite Hst, Hpush.
  cbn [Py.bind].
  rewrite assign_all_same by (rewrite length_map; reflexivity).
  cbn [Py.bind]. fold g1. rewrite Hloop. cbn [Py.bind].
  rewrite drive_same by lia. cbn [Py.bind].
  rewrite iadd_all_same
    by (rewrite length_zip_with, length_map; lia).
  reflexivity.
Qed.

Lemma zip_plus_swap (a b c : vec) :
  zip_with Rplus (zip_with Rplus a b) c
  = zip_with Rplus (zip_with Rplus a c) b.
Proof.
  revert b c. induction a as [|x a IH]; intros b c;
    destruct b as [|y b], c as [|z c]; simpl; try reflexivity.
  rewrite IH. f_equal. ring.
Qed.

(** X6.  [ExpCOBA._sparse_update] on well-shaped arguments returns; it
    pushes [pre.spike] on the delay line and keeps the line so obtained,
    leaves [post.V] and [post.spike] alone, and adds to [post.input[j]] the
    new conductance [g[j]] times the driving force [E - V[j]], where the new
    conductance is the decayed [g[j]] plus [g_max] for every edge into [j]
    whose source has its flag set in the vector pulled from that delay line
    (an edge listed twice counts twice). *)
Theorem COBA_sparse_update_adds_per_edge (self : Exponential.ExpCOBA)
    (pre post : NeuGroup) (_t _dt : R)
    (pre_slice : list (nat * nat)) (post_ids : list nat) (size : nat)
    (g : vec) :
  Exponential.store (Exponential.base self)
  = Exponential.SparseStore pre_slice post_ids size g ->
  sparse_wf (Exponential.base self) pre post ->
  exists dl g' post',
    DelayLine.push (Exponential.pre_spike (Exponential.base self)) (spike pre)
    = Ok dl /\
    Exponential.COBA_sparse_update self pre post _t _dt
    = Ok (Exponential.with_base self
            (Exponential.with_state (Exponential.base self)
               (Exponential.SparseStore pre_slice post_ids size g') dl),
          post') /\
    V post' = V post /\ spike post' = spike post /\ num post' = num post /\
    length g' = num post /\ length (input post') = num post /\
    forall j, (j < num post)%nat ->
      nth j g' 0
      = Exponential.integral (Exponential.base self) (nth j g 0) _t _dt
        + Exponential.g_max (Exponential.base self)
          * INR (count_occ Nat.eq_dec
                   (targets pre_slice post_ids (DelayLine.pull false dl)
                      (range (num pre)))
                   j) /\
      nth j (input post') 0
      = nth j (input post) 0
        + nth j g' 0 * (Exponential.E self - nth j (V post) 0).
Proof.
  intros Hst Hwf. unfold sparse_wf in Hwf. rewrite Hst in Hwf.
  destruct Hwf as (Hdl & Hsp & Hps & Hpost & Hg & HV & Hin).
  destruct (COBA_gating_step self pre (num post) _t _dt _ _ _ _
              Hst Hdl Hsp Hps Hpost Hg)
    as (dl & g' & Hpush & _ & Hg' & Hnth & Hrun).
  exists dl, g'. eexists.
  split; [exact Hpush|].
  split; [exact (Hrun post HV Hin)|].
  cbn [set_input V spike num input].
  repeat split; auto.
  - rewrite !length_zip_with, length_map. lia.
  - rewrite Hnth, (nth_map_in _ g j 0 0) by lia. reflexivity.
  - rewrite (nth_zip_with Rplus _ _ j 0 0)
      by (rewrite ?length_zip_with, ?length_map; lia).
    rewrite (nth_zip_with Rmult _ _ j 0 0) by (rewrite ?length_map; lia).
    rewrite (nth_map_in _ (V post) j 0 0) by lia.
    reflexivity.
Qed.

Lemma COBA_sparse_update_adds_per_edge_witness :
  exists dl g' post',
    DelayLine.push (Exponential.pre_spike (Exponential.base Sample.coba2))
                   (spike Sample.pre1) = Ok dl /\
    Exponential.COBA_sparse_update Sample.coba2 Sample.pre1 Sample.post2 0 1
    = Ok (Exponential.with_base Sample.coba2
            (Exponential.with_state (Exponential.base Sample.coba2)
               (Exponential.SparseStore [(0, 2)%nat] [0%nat; 1%nat] 2 g') dl),
          post') /\
    V post' = V Sample.post2.
Proof.
  assert (sparse_wf (Exponential.base Sample.coba2) Sample.pre1 Sample.post2)
    as Hwf.
  { unfold sparse_wf, delay_wf. cbn.
    repeat split; auto; repeat constructor. }
  destruct (COBA_sparse_update_adds_per_edge Sample.coba2 Sample.pre1
              Sample.post2 0 1 _ _ _ _ eq_refl Hwf)
    as (dl & g' & post' & Hpush & Hrun & HV & _).
  exists dl, g', post'. repeat split; assumption.
Defined.

(** X7.  Two [ExpCOBA] synapses onto the same post-synaptic group combine
    additively: each adds a contribution that does not depend on what
    [post.input] already holds, so updating [A] then [B] and updating [B]
    then [A] return the same synapse states and the same post-synaptic
    group. *)
Theorem COBA_synapses_commute (A B : Exponential.ExpCOBA)
    (preA preB post : NeuGroup) (_t _dt : R) :
  sparse_wf (Exponential.base A) preA post ->
  sparse_wf (Exponential.base B) preB post ->
  exists A' B' p1 q1 p2,
    Exponential.COBA_sparse_update A preA post _t _dt = Ok (A', p1) /\
    Exponential.COBA_sparse_update B preB p1 _t _dt = Ok (B', p2) /\
    Exponential.COBA_sparse_update B preB post _t _dt = Ok (B', q1) /\
    Exponential.COBA_sparse_update A preA q1 _t _dt = Ok (A', p2).
Proof.
  intros HA HB. unfold sparse_wf in HA, HB.
  destruct (Exponential.store (Exponential.base A))
    as [sA pA nA gA|] eqn:HsA; [|contradiction].
  destruct (Exponential.store (Exponential.base B))
    as [sB pB nB gB|] eqn:HsB; [|contradiction].
  destruct HA as (HdlA & HspA & HpsA & HpostA & HgA & HV & Hin).
  destruct HB as (HdlB & HspB & HpsB & HpostB & HgB & _ & _).
  destruct (COBA_gating_step A preA (num post) _t _dt _ _ _ _
              HsA HdlA HspA HpsA HpostA HgA)
    as (dlA & gA' & _ & _ & HgA' & _ & HrunA).
  destruct (COBA_gating_step B preB (num post) _t _dt _ _ _ _
              HsB HdlB HspB HpsB HpostB HgB)
    as (dlB & gB' & _ & _ & HgB' & _ & HrunB).
  pose proof (HrunA post HV Hin) as HA1.
  pose proof (HrunB post HV Hin) as HB1.
  do 5 eexists.
  split; [exact HA1|]. split.
  { apply HrunB; cbn [set_input V input]; [exact HV|].
    rewrite !length_zip_with, length_map. lia. }
  split; [exact HB1|].
  rewrite HrunA
    by (cbn [set_input V input];
        rewrite ?length_zip_with, ?length_map; lia).
  unfold set_input. cbn [num spike V input].
  rewrite zip_plus_swap. reflexivity.
Qed.

Lemma COBA_synapses_commute_witness :
  exists A' B' p1 q1 p2,
    Exponential.COBA_sparse_update Sample.coba2 Sample.pre1 Sample.post2 0 1
    = Ok (A', p1) /\
    Exponential.COBA_sparse_update Sample.coba2 Sample.pre1 p1 0 1
    = Ok (B', p2) /\
    Exponential.COBA_sparse_update Sample.coba2 Sample.pre1 Sample.post2 0 1
    = Ok (B', q1) /\
    Exponential.COBA_sparse_update Sample.coba2 Sample.pre1 q1 0 1
    = Ok (A', p2).
Proof.
  assert (sparse_wf (Exponential.base Sample.coba2) Sample.pre1 Sample.post2)
    as Hwf.
  { unfold sparse_wf, delay_wf. cbn.
    repeat split; auto; repeat constructor. }
  exact (COBA_synapses_commute Sample.coba2 Sample.coba2 Sample.pre1
           Sample.pre1 Sample.post2 0 1 Hwf Hwf).
Defined.

(** X8.  The shapes of a sparse [ExpCOBA] are an invariant: [__init__] on a
    connectivity with one slice per pre-synaptic neuron and post-ids in
    range builds a well-shaped object, and [_sparse_update] on a well-shaped
    object returns (no [IndexError], no shape error) an object that is
    well-shaped again for the next spike vector of the population. *)
Theorem COBA_sparse_shape_invariant :
  (forall pre post conn g_max delay tau E,
     length (spike pre) = num pre ->
     length (conn_pre_slice conn) = num pre ->
     Forall (fun j => (j < num post)%nat) (conn_post_ids conn) ->
     length (V post) = num post -> length (input post) = num post ->
     exists self,
       Exponential.COBA__init__ pre post conn g_max delay tau E "sparse"
       = Ok self /\
       sparse_wf (Exponential.base self) pre post) /\
  (forall self pre post _t _dt,
     sparse_wf (Exponential.base self) pre post ->
     exists self' post',
       Exponential.COBA_sparse_update self pre post _t _dt
       = Ok (self', post') /\
       forall pre2,
         length (spike pre2) = num pre2 -> num pre2 = num pre ->
         sparse_wf (Exponential.base self') pre2 post').
Proof.
  split.
  - intros pre post conn g_max delay tau E Hsp Hps Hpost HV Hin.
    eexists. split; [reflexivity|].
    unfold sparse_wf.
    cbn [Exponential.base Exponential.store Exponential.pre_spike].
    repeat split; auto; try apply new_wf.
    unfold zeros. apply repeat_length.
  - intros self pre post _t _dt Hwf. unfold sparse_wf in Hwf.
    destruct (Exponential.store (Exponential.base self))
      as [pre_slice post_ids size g|] eqn:Hst; [|contradiction].
    destruct Hwf as (Hdl & Hsp & Hps & Hpost & Hg & HV & Hin).
    destruct (COBA_gating_step self pre (num post) _t _dt _ _ _ _
                Hst Hdl Hsp Hps Hpost Hg)
      as (dl & g' & _ & Hdl' & Hg' & _ & Hrun).
    do 2 eexists. split; [exact (Hrun post HV Hin)|].
    intros pre2 Hsp2 Hnum. unfold sparse_wf.
    cbn [Exponential.with_base Exponential.base Exponential.with_state
         Exponential.store Exponential.pre_spike set_input num V input].
    rewrite Hnum. split; [exact Hdl'|].
    repeat split; auto; try lia.
    rewrite !length_zip_with, length_map. lia.
Qed.

Lemma COBA_sparse_shape_invariant_witness :
  exists self,
    Exponential.COBA__init__ Sample.pre1 Sample.post2 Sample.conn2
      1 0 8 0 "sparse" = Ok self /\
    sparse_wf (Exponential.base self) Sample.pre1 Sample.post2.
Proof.
  apply (proj1 COBA_sparse_shape_invariant); cbn; auto.
Defined.

(** ** ExpCUBA: the sparse and the dense update in full *)

(** [a[ids] += c] adds [c] once to every cell named in [ids], also when a
    cell is named several times *)
Lemma iadd_fancy_ok (c : R) (ids : list nat) (a : vec) :
  Forall (fun k => (k < length a)%nat) ids ->
  exists a',
    iadd_fancy a ids c = Ok a' /\
    length a' = length a /\
    forall k,
      nth k a' 0 = if existsb (Nat.eqb k) ids then nth k a 0 + c
                   else nth k a 0.
Proof.
  unfold iadd_fancy.
  assert (forall acc,
            length acc = length a ->
            Forall (fun k => (k < length a)%nat) ids ->
            exists a',
              for_each ids
                (fun acc i => x <- getitem a i ;; setitem acc i (x + c)) acc
              = Ok a' /\
              length a' = length a /\
              forall k,
                nth k a' 0 = if existsb (Nat.eqb k) ids then nth k a 0 + c
                             else nth k acc 0) as Hgen.
  { induction ids as [|i t IH]; intros acc Hacc Hids.
    - exists acc. simpl. auto.
    - pose proof (Forall_inv Hids) as Hi. cbv beta in Hi.
      cbn [for_each]. rewrite (getitem_ok a i 0 Hi). cbn [Py.bind].
      rewrite setitem_ok by lia. cbn [Py.bind].
      destruct (IH (upd acc i (nth i a 0 + c)))
        as (a' & Hrun & Hlen & Hnth).
      { rewrite length_upd. exact Hacc. }
      { exact (Forall_inv_tail Hids). }
      exists a'. split; [exact Hrun|]. split; [exact Hlen|].
      intros k. rewrite Hnth. cbn [existsb].
      destruct (Nat.eqb_spec k i) as [->|Hki]; cbn [orb].
      + destruct (existsb (Nat.eqb i) t); [reflexivity|].
        apply nth_upd_eq. lia.
      + rewrite nth_upd_neq by congruence. reflexivity. }
  intros Hids. apply Hgen; auto.
Qed.

Lemma In_where_lt (mask : list bool) (p : nat) :
  In p (where_ mask) -> (p < length mask)%nat.
Proof.
  unfold where_. rewrite In_where_from, Nat.sub_0_r. intros [_ Hn].
  destruct (Nat.lt_ge_cases p (length mask)) as [Hp|Hp]; [exact Hp|].
  rewrite nth_overflow in Hn by exact Hp. discriminate.
Qed.

(** the loop of [ExpCUBA._sparse_update] over the spiking pre-synaptic
    neurons: a cell gains [c] once per neuron of [l] that feeds it *)
Lemma fancy_loop (pre_slice : list (nat * nat)) (post_ids : list nat)
    (c : R) (l : list nat) (g : vec) :
  Forall (fun j => (j < length g)%nat) post_ids ->
  Forall (fun p => (p < length pre_slice)%nat) l ->
  exists g',
    for_each l
      (fun g pre_id =>
         '(start, stop) <- getitem pre_slice pre_id ;;
         iadd_fancy g (slice post_ids start stop) c) g = Ok g' /\
    length g' = length g /\
    forall j,
      nth j g' 0
      = nth j g 0 + c * INR (length (filter (feeds pre_slice post_ids j) l)).
Proof.
  intros Hpost. revert g Hpost.
  induction l as [|p t IH]; intros g Hpost Hl.
  - exists g. simpl. repeat split; auto. intros j. ring.
  - pose proof (Forall_inv Hl) as Hp. cbv beta in Hp.
    cbn [for_each]. rewrite (getitem_ok pre_slice p (0, 0)%nat Hp).
    cbn [Py.bind].
    destruct (nth p pre_slice (0, 0)%nat) as [start stop] eqn:Hse.
    destruct (iadd_fancy_ok c (slice post_ids start stop) g)
      as (g1 & Hrun1 & Hlen1 & Hnth1).
    { apply Forall_slice, Hpost. }
    rewrite Hrun1. cbn [Py.bind].
    destruct (IH g1) as (g' & Hrun & Hlen & Hnth).
    { rewrite Hlen1. exact Hpost. }
    { exact (Forall_inv_tail Hl). }
    exists g'. split; [exact Hrun|]. split; [congruence|].
    intros j. rewrite Hnth, Hnth1. cbn [filter].
    unfold feeds at 2. rewrite Hse.
    destruct (existsb (Nat.eqb j) (slice post_ids start stop)).
    + cbn [length]. rewrite S_INR. ring.
    + reflexivity.
Qed.


(** X9.  [ExpCUBA._sparse_update] on well-shaped arguments returns, leaves
    [post.V] and [post.spike] alone, and adds the new gating variable to
    [post.input]: [input[j]] grows by the decayed [g[j]] plus [g_max] once
    for every pre-synaptic neuron with a delayed spike whose slice lists
    [j] (the index-array increment counts a post-id listed twice in one
    slice once). *)
Theorem CUBA_sparse_update_adds_per_source (self : Exponential.ExpCUBA)
    (pre post : NeuGroup) (_t _dt : R)
    (pre_slice : list (nat * nat)) (post_ids : list nat) (size : nat)
    (g : vec) :
  Exponential.store self
  = Exponential.SparseStore pre_slice post_ids size g ->
  sparse_wf self pre post ->
  exists dl g' post',
    Exponential._sparse_update self pre post _t _dt
    = Ok (Exponential.with_state self
            (Exponential.SparseStore pre_slice post_ids size g') dl,
          post') /\
    V post' = V post /\ spike post' = spike post /\ num post' = num post /\
    length g' = num post /\ length (input post') = num post /\
    forall j, (j < num post)%nat ->
      nth j g' 0
      = Exponential.integral self (nth j g 0) _t _dt
        + Exponential.g_max self
          * INR (length (filter (feeds pre_slice post_ids j)
                                (where_ (DelayLine.pull false dl)))) /\
      nth j (input post') 0 = nth j (input post) 0 + nth j g' 0.
Proof.
  intros Hst Hwf. unfold sparse_wf in Hwf. rewrite Hst in Hwf.
  destruct Hwf as (Hdl & Hsp & Hps & Hpost & Hg & HV & Hin).
  destruct (push_ok _ (spike pre) (num pre) Hdl Hsp) as (dl & Hpush & Hdl').
  pose proof (pull_length false dl (num pre) Hdl') as Hpull.
  set (g1 := map (fun y => Exponential.integral self y _t _dt) g).
  assert (length g1 = num post) as Hg1
    by (unfold g1; rewrite length_map; exact Hg).
  destruct (fancy_loop pre_slice post_ids (Exponential.g_max self)
              (where_ (DelayLine.pull false dl)) g1)
    as (g' & Hloop & Hlen' & Hnth').
  { rewrite Hg1. exact Hpost. }
  { apply Forall_forall. intros p Hp. apply In_where_lt in Hp. lia. }
  exists dl, g', (set_input post (zip_with Rplus (input post) g')).
  split.
  { unfold Exponential._sparse_update. rewrite Hst, Hpush. cbn [Py.bind].
    rewrite assign_all_same by (rewrite length_map; reflexivity).
    cbn [Py.bind]. fold g1. rewrite Hloop. cbn [Py.bind].
    rewrite iadd_all_same by lia. reflexivity. }
  cbn [set_input V spike num input].
  repeat split; auto; try lia.
  - rewrite length_zip_with. lia.
  - rewrite Hnth'. unfold g1. rewrite (nth_map_in _ g j 0 0) by lia.
    reflexivity.
  - rewrite (nth_zip_with Rplus _ _ j 0 0) by lia. reflexivity.
Qed.

Lemma CUBA_sparse_update_adds_per_source_witness :
  exists dl g' post',
    Exponential._sparse_update (Sample.cuba 8) Sample.pre1 Sample.post1 0 1
    = Ok (Exponential.with_state (Sample.cuba 8)
            (Exponential.SparseStore [(0, 1)%nat] [0%nat] 1 g') dl, post') /\
    V post' = V Sample.post1.
Proof.
  assert (sparse_wf (Sample.cuba 8) Sample.pre1 Sample.post1) as Hwf.
  { unfold sparse_wf, delay_wf. cbn.
    repeat split; auto; repeat constructor. }
  destruct (CUBA_sparse_update_adds_per_source (Sample.cuba 8) Sample.pre1
              Sample.post1 0 1 _ _ _ _ eq_refl Hwf)
    as (dl & g' & post' & Hrun & HV & _).
  exists dl, g', post'. split; [exact Hrun | exact HV].
Defined.

(** the loop of [ExpCUBA._dense_update]: every row whose index is in [l]
    and whose delayed spike flag is set gains its row of [conn_mat] times
    [g_max]; the other rows are kept *)
Lemma dense_loop (conn_mat : list vec) (delayed : list bool) (c : R)
    (l : list nat) (G : list vec) :
  NoDup l ->
  Forall (fun i => (i < length delayed)%nat /\ (i < length G)%nat /\
                   (i < length conn_mat)%nat /\
                   length (nth i conn_mat []) = length (nth i G [])) l ->
  exists G',
    for_each l
      (fun g i =>
         i_spike <- getitem delayed i ;;
         if (i_spike : bool) then
           row <- getitem g i ;;
           cm <- getitem conn_mat i ;;
           row <- iadd_all row (map (fun x => x * c) cm) ;;
           setitem g i row
         else Ok g) G = Ok G' /\
    length G' = length G /\
    forall i,
      nth i G' []
      = if (existsb (Nat.eqb i) l && nth i delayed false)%bool
        then dense_row c (nth i G []) (nth i conn_mat [])
        else nth i G [].
Proof.
  revert G. induction l as [|i t IH]; intros G Hnd Hl.
  - exists G. simpl. auto.
  - pose proof (Forall_inv Hl) as (Hid & HiG & Hic & Hrow).
    pose proof (Forall_inv_tail Hl) as Ht.
    apply NoDup_cons_iff in Hnd. destruct Hnd as [Hnot Hnd].
    cbn [for_each]. rewrite (getitem_ok delayed i false Hid).
    cbn [Py.bind].
    assert (exists G1,
              (if nth i delayed false
               then row <- getitem G i ;;
                    cm <- getitem conn_mat i ;;
                    row <- iadd_all row (map (fun x => x * c) cm) ;;
                    setitem G i row
               else Ok G) = Ok G1 /\
              length G1 = length G /\
              nth i G1 []
              = (if nth i delayed false
                 then dense_row c (nth i G []) (nth i conn_mat [])
                 else nth i G []) /\
              forall k, k <> i -> nth k G1 [] = nth k G [])
      as (G1 & Hstep & Hlen1 & Hi1 & Hk1).
    { destruct (nth i delayed false).
      - rewrite (getitem_ok G i [] HiG). cbn [Py.bind].
        rewrite (getitem_ok conn_mat i [] Hic). cbn [Py.bind].
        rewrite iadd_all_same by (rewrite length_map; exact Hrow).
        cbn [Py.bind]. rewrite setitem_ok by exact HiG.
        eexists. split; [reflexivity|]. split; [apply length_upd|].
        split; [apply nth_upd_eq, HiG|].
        intros k Hk. apply nth_upd_neq. congruence.
      - exists G. auto. }
    match goal with
    | |- context [Py.bind ?m _] =>
        replace m with (Ok (A := list vec) G1) by (symmetry; exact Hstep)
    end.
    cbn [Py.bind].
    destruct (IH G1 Hnd) as (G' & Hrun & Hlen & Hnth).
    { apply Forall_forall. intros k Hk.
      rewrite Forall_forall in Ht. destruct (Ht k Hk) as (H1 & H2 & H3 & H4).
      assert (k <> i) as Hki by (intros ->; contradiction).
      rewrite Hlen1, (Hk1 k Hki). auto. }
    exists G'. split; [exact Hrun|]. split; [congruence|].
    intros k. rewrite Hnth. cbn [existsb].
    destruct (Nat.eqb_spec k i) as [->|Hki]; cbn [orb andb].
    + assert (existsb (Nat.eqb i) t = false) as ->.
      { destruct (existsb (Nat.eqb i) t) eqn:He; [|reflexivity].
        apply existsb_exists in He. destruct He as (k & Hk & Heq).
        apply Nat.eqb_eq in Heq. subst k. contradiction. }
      cbn [andb]. exact Hi1.
    + rewrite (Hk1 k Hki). reflexivity.
Qed.

(** X10.  [ExpCUBA._dense_update] on well-shaped arguments returns and only
    changes the synapse: every row [i] of [self.g] decays, and gains
    [conn_mat[i] * g_max] when the pre-synaptic neuron [i] has its delayed
    spike flag set; the post-synaptic group, [post.input] included, is
    returned as it was given. *)
Theorem CUBA_dense_update_rows (self : Exponential.ExpCUBA)
    (pre post : NeuGroup) (_t _dt : R)
    (conn_mat : list vec) (size : nat * nat) (g : list vec) :
  Exponential.store self = Exponential.DenseStore conn_mat size g ->
  dense_wf self pre ->
  exists dl g',
    Exponential._dense_update self pre post _t _dt
    = Ok (Exponential.with_state self
            (Exponential.DenseStore conn_mat size g') dl, post) /\
    length g' = num pre /\
    forall i, (i < num pre)%nat ->
      let decayed := map (fun y => Exponential.integral self y _t _dt)
                         (nth i g []) in
      nth i g' []
      = if nth i (DelayLine.pull false dl) false
        then dense_row (Exponential.g_max self) decayed (nth i conn_mat [])
        else decayed.
Proof.
  intros Hst Hwf. unfold dense_wf in Hwf. rewrite Hst in Hwf.
  destruct Hwf as (Hdl & Hsp & Hcm & Hg & Hrows).
  destruct (push_ok _ (spike pre) (num pre) Hdl Hsp) as (dl & Hpush & Hdl').
  pose proof (pull_length false dl (num pre) Hdl') as Hpull.
  change (list (list R)) with (list vec) in *.
  set (G1 := map (A := vec) (B := vec)
               (map (fun y => Exponential.integral self y _t _dt)) g).
  assert (length G1 = num pre) as HG1
    by (unfold G1; rewrite length_map; exact Hg).
  assert (forall i, (i < num pre)%nat ->
            nth i G1 []
            = map (fun y => Exponential.integral self y _t _dt) (nth i g []))
    as HG1nth.
  { intros i Hi.
    assert (i < length g)%nat as Hig by lia.
    exact (nth_map_in _ g i [] [] Hig). }
  destruct (dense_loop conn_mat (DelayLine.pull false dl)
              (Exponential.g_max self) (range (num pre)) G1)
    as (g' & Hloop & Hlen & Hnth).
  { apply seq_NoDup. }
  { apply Forall_forall. intros i Hi. unfold range in Hi.
    apply in_seq in Hi.
    assert (i < num pre)%nat as Hlt by lia.
    pose proof (HG1nth i Hlt) as E. pose proof (Hrows i Hlt) as Er.
    assert (length (nth i G1 []) = length (nth i g [])) as E2
      by (rewrite E; apply length_map).
    cbv beta. repeat split;
      first [lia | unfold G1; rewrite length_map; lia
            | exact (eq_trans Er (eq_sym E2))]. }
  exists dl, g'. split.
  { unfold Exponential._dense_update. rewrite Hst, Hpush. cbn [Py.bind].
    match goal with
    | |- Py.bind ?m _ = _ =>
        replace m with (Ok (A := list vec) g') by (symmetry; exact Hloop)
    end. reflexivity. }
  split; [lia|].
  intros i Hi decayed. rewrite Hnth, HG1nth by exact Hi.
  assert (existsb (Nat.eqb i) (range (num pre)) = true) as ->.
  { apply existsb_exists. exists i. split; [|apply Nat.eqb_refl].
    unfold range. apply in_seq. lia. }
  reflexivity.
Qed.

Lemma CUBA_dense_update_rows_witness :
  exists dl g',
    Exponential._dense_update Sample.cuba_dense Sample.pre1 Sample.post1 0 1
    = Ok (Exponential.with_state Sample.cuba_dense
            (Exponential.DenseStore [[1]] (1, 1)%nat g') dl, Sample.post1) /\
    length g' = 1%nat.
Proof.
  assert (dense_wf Sample.cuba_dense Sample.pre1) as Hwf.
  { unfold dense_wf, delay_wf. cbn.
    repeat split; auto; try (repeat constructor).
    intros [|i] Hi; [reflexivity | lia]. }
  destruct (CUBA_dense_update_rows Sample.cuba_dense Sample.pre1 Sample.post1
              0 1 _ _ _ eq_refl Hwf) as (dl & g' & Hrun & Hlen & _).
  exists dl, g'. split; [exact Hrun | exact Hlen].
Defined.

(** ** NMDA: the rise variable, the sign of the current, bad post-ids *)

Section NMDAEdges.
Variable self : NMDA.NMDA.
Variable delayed : list bool.
Variable Vp : vec.
Variable n_post : nat.
Hypothesis pre_len : length (NMDA.pre_ids self) = NMDA.size self.
Hypothesis post_len : length (NMDA.post_ids self) = NMDA.size self.
Hypothesis g_len : length (NMDA.g self) = NMDA.size self.
Hypothesis pre_range :
  Forall (fun i => (i < length delayed)%nat) (NMDA.pre_ids self).
Hypothesis V_len : length Vp = n_post.




End NMDAEdges.

Lemma g_inf_lower (self : NMDA.NMDA) (v : R) :
  0 < NMDA.cc_Mg self -> 0 < NMDA.beta self -> 1 < NMDA.g_inf self v.
Proof.
  intros Hc Hb. unfold NMDA.g_inf.
  assert (0 < NMDA.cc_Mg self / NMDA.beta self)
    by (apply Rdiv_lt_0_compat; assumption).
  pose proof (exp_pos (- NMDA.alpha self * v)).
  assert (0 < NMDA.cc_Mg self / NMDA.beta self
              * exp (- NMDA.alpha self * v))
    by (apply Rmult_lt_0_compat; assumption).
  lra.
Qed.

(** the sign and the size of the current of one edge *)
Lemma current_sign (self : NMDA.NMDA) (gi v : R) :
  0 < NMDA.cc_Mg self -> 0 < NMDA.beta self ->
  0 <= NMDA.g_max self -> 0 <= gi ->
  (v <= NMDA.E self -> NMDA.current self gi v <= 0) /\
  (NMDA.E self <= v -> 0 <= NMDA.current self gi v) /\
  Rabs (NMDA.current self gi v)
  <= NMDA.g_max self * gi * Rabs (v - NMDA.E self).
Proof.
  intros Hc Hb Hgm Hgi.
  pose proof (g_inf_lower self v Hc Hb) as HG.
  assert (0 < / NMDA.g_inf self v < 1) as [Hi0 Hi1].
  { split; [apply Rinv_0_lt_compat; lra|].
    rewrite <- Rinv_1. apply Rinv_lt_contravar; lra. }
  assert (0 <= NMDA.g_max self * gi) as Hp by (apply Rmult_le_pos; assumption).
  unfold NMDA.current, Rdiv.
  set (k := NMDA.g_max self * gi) in *.
  set (iG := / NMDA.g_inf self v) in *.
  split; [|split].
  - intros Hle. assert (k * (v - NMDA.E self) <= 0) by nra. nra.
  - intros Hge. assert (0 <= k * (v - NMDA.E self)) by nra. nra.
  - rewrite !Rabs_mult, (Rabs_pos_eq k Hp), (Rabs_pos_eq iG) by lra.
    pose proof (Rabs_pos (v - NMDA.E self)) as Ha.
    assert (0 <= k * Rabs (v - NMDA.E self)) by (apply Rmult_le_pos; lra).
    nra.
Qed.




(** X12.  In the loop of [NMDA.sparse_update], with [cc_Mg > 0],
    [beta > 0], [g_max >= 0] and [g[i] >= 0], the iteration of edge [i]
    drives its target towards the reversal potential: it raises
    [input[post_id]] when [V[post_id] <= E], lowers it when [V[post_id] >= E],
    by at most [g_max * g[i] * |V[post_id] - E|] (the magnesium block only
    attenuates), and touches no other cell of [input]. *)
Theorem NMDA_edge_drives_toward_reversal (self : NMDA.NMDA)
    (pre post : NeuGroup) (delayed : list bool) (x inp : vec) (i : nat) :
  NMDA_wf self pre post ->
  length delayed = num pre ->
  (i < NMDA.size self)%nat ->
  length x = NMDA.size self -> length inp = num post ->
  0 < NMDA.cc_Mg self -> 0 < NMDA.beta self ->
  0 <= NMDA.g_max self -> 0 <= nth i (NMDA.g self) 0 ->
  exists x' inp',
    NMDA.edge self delayed (V post) (x, inp) i = Ok (x', inp') /\
    let post_id := nth i (NMDA.post_ids self) 0%nat in
    let v := nth post_id (V post) 0 in
    (v <= NMDA.E self -> nth post_id inp 0 <= nth post_id inp' 0) /\
    (NMDA.E self <= v -> nth post_id inp' 0 <= nth post_id inp 0) /\
    Rabs (nth post_id inp' 0 - nth post_id inp 0)
    <= NMDA.g_max self * nth i (NMDA.g self) 0 * Rabs (v - NMDA.E self) /\
    forall k, k <> post_id -> nth k inp' 0 = nth k inp 0.
Proof.
  intros (_ & _ & Hpre & Hpost & Hg & _ & Hpr & Hpo & HV & _)
         Hdel Hi Hx Hinp Hc Hb Hgm Hgi.
  assert (Forall (fun p => (p < length delayed)%nat) (NMDA.pre_ids self))
    as Hpr' by (rewrite Hdel; exact Hpr).
  pose proof (edge_ok self delayed (V post) (num post) Hpre Hpost Hg Hpr' Hpo
                HV x inp i Hi Hx Hinp) as Hrun.
  cbv zeta in Hrun.
  do 2 eexists. split; [exact Hrun|].
  intros post_id v.
  assert (post_id < length inp)%nat as Hp.
  { rewrite Hinp. rewrite Forall_forall in Hpo.
    apply Hpo, nth_In. lia. }
  destruct (current_sign self (nth i (NMDA.g self) 0) v Hc Hb Hgm Hgi)
    as (Hneg & Hposi & Habs).
  fold post_id. fold v.
  rewrite (nth_upd_eq inp post_id _ 0 Hp).
  split; [intros H; specialize (Hneg H); lra|].
  split; [intros H; specialize (Hposi H); lra|].
  split.
  - match goal with
    | |- Rabs ?d <= _ =>
        replace d with (- NMDA.current self (nth i (NMDA.g self) 0) v) by ring
    end.
    rewrite Rabs_Ropp. exact Habs.
  - intros k Hk. apply nth_upd_neq. congruence.
Qed.

Lemma NMDA_edge_drives_toward_reversal_witness :
  exists x' inp',
    NMDA.edge Sample.nmda [true] (V Sample.post1) ([0], [0]) 0
    = Ok (x', inp').
Proof.
  assert (NMDA_wf Sample.nmda Sample.pre1 Sample.post1) as Hn.
  { unfold NMDA_wf, delay_wf. cbn.
    repeat split; auto; repeat constructor. }
  assert (0 < NMDA.cc_Mg Sample.nmda) as Hc by (cbn; lra).
  assert (0 < NMDA.beta Sample.nmda) as Hb by (cbn; lra).
  assert (0 <= NMDA.g_max Sample.nmda) as Hg by (cbn; lra).
  assert (0 <= nth 0 (NMDA.g Sample.nmda) 0) as Hgi by (cbn; lra).
  assert (0 < NMDA.size Sample.nmda)%nat as Hi by (cbn; lia).
  destruct (NMDA_edge_drives_toward_reversal Sample.nmda Sample.pre1
              Sample.post1 [true] [0] [0] 0 Hn eq_refl Hi eq_refl eq_refl
              Hc Hb Hg Hgi) as (x' & inp' & Hrun & _).
  exists x', inp'. exact Hrun.
Defined.







(** ** GABAa: the differential form, the output step, the markov form *)

(** the loop of [update] of [get_GABAa1]: a synapse gains 1 once per
    spiking pre-synaptic neuron of [l] that lists it *)
Lemma count_loop (pre2syn : list (list nat)) (l : list nat) (s : vec) :
  Forall (fun p => (p < length pre2syn)%nat) l ->
  Forall (Forall (fun k => (k < length s)%nat)) pre2syn ->
  exists s',
    for_each l
      (fun s pre_id =>
         syn_ids <- getitem pre2syn pre_id ;;
         iadd_fancy s syn_ids 1) s = Ok s' /\
    length s' = length s /\
    forall k,
      nth k s' 0
      = nth k s 0
        + INR (length (filter
                         (fun p => existsb (Nat.eqb k) (nth p pre2syn []))
                         l)).
Proof.
  revert s. induction l as [|p t IH]; intros s Hl Hids.
  - exists s. simpl. repeat split; auto. intros k. ring.
  - pose proof (Forall_inv Hl) as Hp. cbv beta in Hp.
    cbn [for_each]. rewrite (getitem_ok pre2syn p [] Hp). cbn [Py.bind].
    destruct (iadd_fancy_ok 1 (nth p pre2syn []) s)
      as (s1 & Hrun1 & Hlen1 & Hnth1).
    { rewrite Forall_forall in Hids. apply Hids, nth_In, Hp. }
    rewrite Hrun1. cbn [Py.bind].
    destruct (IH s1 (Forall_inv_tail Hl)) as (s' & Hrun & Hlen & Hnth).
    { rewrite Hlen1. exact Hids. }
    exists s'. split; [exact Hrun|]. split; [congruence|].
    intros k. rewrite Hnth, Hnth1. cbn [filter].
    destruct (existsb (Nat.eqb k) (nth p pre2syn [])).
    + cbn [length]. rewrite S_INR. ring.
    + ring.
Qed.

(** X15.  [update] of [get_GABAa1], with one list of in-range synapse ids
    per pre-synaptic neuron, returns; every synapse takes the forward Euler
    decay step [s + dt * (- s / tau_decay)] and then gains 1 for every
    spiking pre-synaptic neuron that lists it, and [g] is [g_max * s]. *)
Theorem GABAa1_update_counts_spikes (g_max tau_decay dt : R)
    (ST : GABAa.SynState) (pre : GABAa.NeuState)
    (pre2syn : list (list nat)) :
  length pre2syn = length (GABAa.spike pre) ->
  Forall (Forall (fun k => (k < length (GABAa.s ST))%nat)) pre2syn ->
  exists ST',
    GABAa.update1 g_max tau_decay dt ST pre pre2syn = Ok ST' /\
    length (GABAa.s ST') = length (GABAa.s ST) /\
    forall k, (k < length (GABAa.s ST))%nat ->
      let s := nth k (GABAa.s ST) 0 in
      nth k (GABAa.s ST') 0
      = s + dt * (- s / tau_decay)
        + INR (length (filter
                         (fun p => existsb (Nat.eqb k) (nth p pre2syn []))
                         (GABAa.spiking pre))) /\
      nth k (GABAa.g ST') 0 = g_max * nth k (GABAa.s ST') 0.
Proof.
  intros Hp2s Hids.
  set (s1 := map (fun s => GABAa.int_s1 tau_decay dt s 0) (GABAa.s ST)).
  assert (length s1 = length (GABAa.s ST)) as Hs1
    by (unfold s1; apply length_map).
  destruct (count_loop pre2syn (GABAa.spiking pre) s1)
    as (s' & Hrun & Hlen & Hnth).
  { apply Forall_forall. intros p Hp. apply In_spiking in Hp. lia. }
  { rewrite Hs1. exact Hids. }
  exists {| GABAa.s := s'; GABAa.g := map (fun s => g_max * s) s';
            GABAa.t_last_pre_spike := GABAa.t_last_pre_spike ST |}.
  split.
  { unfold GABAa.update1. fold s1. rewrite Hrun. reflexivity. }
  cbn [GABAa.s GABAa.g]. split; [lia|].
  intros k Hk. cbv zeta. split.
  - rewrite Hnth. unfold s1.
    rewrite (nth_map_in _ (GABAa.s ST) k 0 0) by lia. reflexivity.
  - apply nth_map_in. lia.
Qed.

Lemma GABAa1_update_counts_spikes_witness :
  exists ST',
    GABAa.update1 0.4 6 0.1 Sample.gaba_ST Sample.gaba_pre
      Sample.gaba_pre2syn = Ok ST' /\
    length (GABAa.s ST') = 2%nat.
Proof.
  assert (Forall (Forall (fun k => (k < length (GABAa.s Sample.gaba_ST))%nat))
                 Sample.gaba_pre2syn) as Hids.
  { cbn. repeat constructor. }
  destruct (GABAa1_update_counts_spikes 0.4 6 0.1 Sample.gaba_ST
              Sample.gaba_pre Sample.gaba_pre2syn eq_refl Hids)
    as (ST' & Hrun & Hlen & _).
  exists ST'. split; [exact Hrun | exact Hlen].
Defined.

Lemma sum_fancy_value (a : vec) (ids : list nat) :
  Forall (fun k => (k < length a)%nat) ids ->
  sum_fancy a ids = Ok (sum_over ids (fun k => nth k a 0)).
Proof.
  unfold sum_fancy.
  assert (forall acc,
            Forall (fun k => (k < length a)%nat) ids ->
            for_each ids (fun acc i => x <- getitem a i ;; Ok (acc + x)) acc
            = Ok (acc + sum_over ids (fun k => nth k a 0))) as Hgen.
  { induction ids as [|k t IH]; intros acc Hids.
    - simpl. f_equal. ring.
    - cbn [for_each].
      rewrite (getitem_ok a k 0) by exact (Forall_inv Hids). cbn [Py.bind].
      rewrite (IH _ (Forall_inv_tail Hids)). f_equal.
      cbn [sum_over fold_right]. unfold sum_over. ring. }
  intros Hids. rewrite (Hgen 0 Hids). f_equal. ring.
Qed.

Lemma map_each_map {A B : Type} (f : A -> result B) (h : A -> B)
    (l : list A) :
  Forall (fun y => f y = Ok (h y)) l -> map_each f l = Ok (map h l).
Proof.
  induction l as [|y t IH]; intros Hl; [reflexivity|].
  cbn [map_each]. rewrite (Forall_inv Hl). cbn [Py.bind].
  rewrite (IH (Forall_inv_tail Hl)). reflexivity.
Qed.

(** X16.  [output] of the GABAa models on well-shaped arguments returns,
    leaves [post['V']] and [post['spike']] alone, and subtracts from
    [post['input'][j]] the summed conductance of the synapses listed in
    [post2syn[j]] times [V[j] - E]. *)
Theorem GABAa_output_sums_conductances (E : R) (ST : GABAa.SynState)
    (post : GABAa.NeuState) (post2syn : list (list nat)) :
  output_wf ST post post2syn ->
  exists post',
    GABAa.output E ST post post2syn = Ok post' /\
    GABAa.V post' = GABAa.V post /\ GABAa.spike post' = GABAa.spike post /\
    length (GABAa.input post') = length (GABAa.input post) /\
    forall j, (j < length (GABAa.V post))%nat ->
      nth j (GABAa.input post') 0
      = nth j (GABAa.input post) 0
        - sum_over (nth j post2syn []) (fun k => nth k (GABAa.g ST) 0)
          * (nth j (GABAa.V post) 0 - E).
Proof.
  intros (Hp2s & Hin & Hids).
  set (cond := map (fun ids => sum_over ids (fun k => nth k (GABAa.g ST) 0))
                   post2syn).
  assert (map_each (fun syn_ids => sum_fancy (GABAa.g ST) syn_ids) post2syn
          = Ok cond) as Hpc.
  { apply map_each_map. apply Forall_forall. intros ids Hi.
    apply sum_fancy_value. rewrite Forall_forall in Hids. apply Hids, Hi. }
  assert (length cond = length (GABAa.V post)) as Hc
    by (unfold cond; rewrite length_map; exact Hp2s).
  eexists. split.
  { unfold GABAa.output. rewrite Hpc. cbn [Py.bind].
    rewrite broadcast_same by (rewrite length_map; lia). cbn [Py.bind].
    rewrite isub_all_same by (rewrite length_zip_with, length_map; lia).
    reflexivity. }
  cbn [GABAa.set_input GABAa.V GABAa.spike GABAa.input].
  split; [reflexivity|]. split; [reflexivity|].
  split; [rewrite !length_zip_with, length_map; lia|].
  intros j Hj.
  rewrite (nth_zip_with Rminus _ _ j 0 0)
    by (rewrite ?length_zip_with, ?length_map; lia).
  rewrite (nth_zip_with Rmult _ _ j 0 0) by (rewrite ?length_map; lia).
  rewrite (nth_map_in _ (GABAa.V post) j 0 0) by lia.
  unfold cond. rewrite (nth_map_in _ post2syn j [] 0) by lia.
  reflexivity.
Qed.

Lemma GABAa_output_sums_conductances_witness :
  exists post',
    GABAa.output (-80) Sample.gaba_ST Sample.gaba_post Sample.gaba_post2syn
    = Ok post' /\
    GABAa.V post' = [-80].
Proof.
  assert (output_wf Sample.gaba_ST Sample.gaba_post Sample.gaba_post2syn)
    as Hg.
  { unfold output_wf. cbn. repeat split; auto; repeat constructor. }
  destruct (GABAa_output_sums_conductances (-80) Sample.gaba_ST
              Sample.gaba_post Sample.gaba_post2syn Hg)
    as (post' & Hrun & HV & _).
  exists post'. split; [exact Hrun | exact HV].
Defined.

(** X17.  [output] of the GABAa models raises [ValueError] when [post2syn]
    and the post-synaptic group disagree on the number of neurons (and
    neither has exactly one): the product [post_cond * (post['V'] - E)]
    cannot be broadcast. *)
Theorem GABAa_output_shape_mismatch_raises (E : R) (ST : GABAa.SynState)
    (post : GABAa.NeuState) (post2syn : list (list nat)) :
  Forall (Forall (fun k => (k < length (GABAa.g ST))%nat)) post2syn ->
  length post2syn <> length (GABAa.V post) ->
  length post2syn <> 1%nat -> length (GABAa.V post) <> 1%nat ->
  GABAa.output E ST post post2syn = Raise ValueError.
Proof.
  intros Hids Hne H1 H2.
  set (cond := map (fun ids => sum_over ids (fun k => nth k (GABAa.g ST) 0))
                   post2syn).
  assert (map_each (fun syn_ids => sum_fancy (GABAa.g ST) syn_ids) post2syn
          = Ok cond) as Hpc.
  { apply map_each_map. apply Forall_forall. intros ids Hi.
    apply sum_fancy_value. rewrite Forall_forall in Hids. apply Hids, Hi. }
  assert (length cond = length post2syn) as Hc
    by (unfold cond; apply length_map).
  unfold GABAa.output. rewrite Hpc. cbn [Py.bind].
  unfold broadcast. rewrite length_map, Hc.
  destruct (Nat.eqb_spec (length post2syn) (length (GABAa.V post)));
    [contradiction|].
  assert (length (map (fun v => v - E) (GABAa.V post)) <> 1%nat) as H2'
    by (rewrite length_map; exact H2).
  rewrite <- Hc in H1.
  destruct cond as [|c0 [|c1 cs]]; cbn in H1; try lia;
    destruct (map (fun v => v - E) (GABAa.V post)) as [|d0 [|d1 ds]];
    cbn in H2'; try lia; reflexivity.
Qed.

Lemma GABAa_output_shape_mismatch_raises_witness :
  GABAa.output (-80) Sample.gaba_ST Sample.gaba_pre
    [[0%nat]; [1%nat]; [0%nat]] = Raise ValueError.
Proof.
  apply GABAa_output_shape_mismatch_raises; cbn; try lia.
  repeat constructor.
Defined.

(** [update] of [get_GABAa2], cell by cell *)
Lemma update2_cells (g_max alpha beta T T_duration dt : R)
    (ST : GABAa.SynState) (pre : GABAa.NeuState)
    (pre2syn : list (list nat)) (_t_ : R) :
  update_wf ST pre pre2syn ->
  exists ST',
    GABAa.update2 g_max alpha beta T T_duration dt ST pre pre2syn _t_
    = Ok ST' /\
    length (GABAa.s ST') = length (GABAa.s ST) /\
    length (GABAa.t_last_pre_spike ST') = length (GABAa.s ST) /\
    forall k, (k < length (GABAa.s ST))%nat ->
      nth k (GABAa.t_last_pre_spike ST') 0
      = (if reached pre2syn (GABAa.spiking pre) k then _t_
         else nth k (GABAa.t_last_pre_spike ST) 0) /\
      nth k (GABAa.s ST') 0
      = GABAa.int_s2 alpha beta dt (nth k (GABAa.s ST) 0) _t_
          (GABAa.transmitter T T_duration _t_
             (nth k (GABAa.t_last_pre_spike ST') 0)).
Proof.
  intros (Hlen & Hp2s & Hids).
  destruct (trigger_loop pre2syn _t_ (GABAa.spiking pre)
              (GABAa.t_last_pre_spike ST))
    as (t' & Hrun & Hlen' & Hnth).
  { apply Forall_forall. intros p Hp. apply In_spiking in Hp. lia. }
  { rewrite Hlen. exact Hids. }
  set (s' := zip_with (fun s TT => GABAa.int_s2 alpha beta dt s _t_ TT)
               (GABAa.s ST) (map (GABAa.transmitter T T_duration _t_) t')).
  assert (length s' = length (GABAa.s ST)) as Hs'
    by (unfold s'; rewrite length_zip_with, length_map; lia).
  exists {| GABAa.s := s'; GABAa.g := map (fun s => g_max * s) s';
            GABAa.t_last_pre_spike := t' |}.
  split; [unfold GABAa.update2; rewrite Hrun; reflexivity|].
  cbn [GABAa.s GABAa.g GABAa.t_last_pre_spike].
  split; [exact Hs'|]. split; [lia|].
  intros k Hk. split; [apply Hnth|].
  unfold s'.
  rewrite (nth_zip_with _ _ _ k 0 0) by (rewrite ?length_map; lia).
  rewrite (nth_map_in _ t' k 0 0) by lia. reflexivity.
Qed.

(** one forward Euler step of the markov form keeps a fraction a fraction *)
Lemma int_s2_fraction (alpha beta dt s t TT : R) :
  0 <= dt -> 0 <= alpha * TT -> 0 <= beta ->
  dt * (alpha * TT + beta) <= 1 ->
  0 <= s <= 1 -> 0 <= GABAa.int_s2 alpha beta dt s t TT <= 1.
Proof.
  intros Hdt Ha Hb Hstep [Hs0 Hs1].
  unfold GABAa.int_s2, Integrators.euler.
  assert (0 <= dt * (alpha * TT)) by (apply Rmult_le_pos; assumption).
  assert (0 <= dt * beta) by (apply Rmult_le_pos; assumption).
  split; nra.
Qed.

(** X18.  The gating variable of [get_GABAa2] stays a fraction: with
    [dt, alpha, beta, T >= 0] and a step small enough,
    [dt * (alpha * T + beta) <= 1], [update] maps a state whose [s] cells
    all lie in [0, 1] to a state whose [s] cells all lie in [0, 1]. *)
Theorem GABAa2_gating_stays_fraction (g_max alpha beta T T_duration dt : R)
    (ST : GABAa.SynState) (pre : GABAa.NeuState)
    (pre2syn : list (list nat)) (_t_ : R) :
  update_wf ST pre pre2syn ->
  0 <= dt -> 0 <= alpha -> 0 <= beta -> 0 <= T ->
  dt * (alpha * T + beta) <= 1 ->
  Forall (fun s => 0 <= s <= 1) (GABAa.s ST) ->
  exists ST',
    GABAa.update2 g_max alpha beta T T_duration dt ST pre pre2syn _t_
    = Ok ST' /\
    Forall (fun s => 0 <= s <= 1) (GABAa.s ST').
Proof.
  intros Hwf Hdt Ha Hb HT Hstep Hfrac.
  destruct (update2_cells g_max alpha beta T T_duration dt ST pre pre2syn _t_
              Hwf) as (ST' & Hrun & Hlen & _ & Hcells).
  exists ST'. split; [exact Hrun|].
  apply Forall_forall. intros y Hy.
  destruct (In_nth _ _ 0 Hy) as (k & Hk & <-).
  rewrite Hlen in Hk. destruct (Hcells k Hk) as [_ ->].
  assert (0 <= nth k (GABAa.s ST) 0 <= 1) as Hs.
  { rewrite Forall_forall in Hfrac. apply Hfrac, nth_In, Hk. }
  unfold GABAa.transmitter, Rltb, of_bool.
  destruct (Rlt_dec _ _).
  - apply int_s2_fraction; auto.
    + apply Rmult_le_pos; lra.
    + replace (1 * T) with T by ring. exact Hstep.
  - apply int_s2_fraction; auto.
    + replace (alpha * (0 * T)) with 0 by ring. lra.
    + replace (alpha * (0 * T)) with 0 by ring.
      assert (0 <= dt * (alpha * T)) by (apply Rmult_le_pos; nra). nra.
Qed.

Lemma GABAa2_gating_stays_fraction_witness :
  exists ST',
    GABAa.update2 0.04 0.53 0.18 1 1 0.1 Sample.gaba_ST Sample.gaba_pre
      Sample.gaba_pre2syn 5 = Ok ST' /\
    Forall (fun s => 0 <= s <= 1) (GABAa.s ST').
Proof.
  assert (update_wf Sample.gaba_ST Sample.gaba_pre Sample.gaba_pre2syn)
    as Hwf.
  { unfold update_wf. cbn. repeat split; auto; repeat constructor. }
  assert (Forall (fun s => 0 <= s <= 1) (GABAa.s Sample.gaba_ST)) as Hf.
  { cbn. repeat constructor; lra. }
  apply GABAa2_gating_stays_fraction; auto; lra.
Defined.

(** X19.  The transmitter pulse of [get_GABAa2] lasts [T_duration] after
    the last pre-synaptic spike: when synapse [k] is triggered by an update
    at time [t0] and not by the next update at time [t1], that update
    integrates [s[k]] with [TT = T] if [t1 - t0 < T_duration] and with
    [TT = 0] (pure decay at rate [beta]) otherwise. *)
Theorem GABAa2_transmitter_window (g_max alpha beta T T_duration dt : R)
    (ST0 : GABAa.SynState) (pre0 : GABAa.NeuState)
    (pre2syn : list (list nat)) (t0 : R) (k : nat) :
  update_wf ST0 pre0 pre2syn ->
  (k < length (GABAa.s ST0))%nat ->
  triggered pre0 pre2syn k ->
  exists ST1,
    GABAa.update2 g_max alpha beta T T_duration dt ST0 pre0 pre2syn t0
    = Ok ST1 /\
    forall pre1 t1,
      length (GABAa.spike pre1) = length (GABAa.spike pre0) ->
      ~ triggered pre1 pre2syn k ->
      exists ST2,
        GABAa.update2 g_max alpha beta T T_duration dt ST1 pre1 pre2syn t1
        = Ok ST2 /\
        let s1 := nth k (GABAa.s ST1) 0 in
        let TT := if Rlt_dec (t1 - t0) T_duration then T else 0 in
        nth k (GABAa.s ST2) 0
        = s1 + dt * (alpha * TT * (1 - s1) - beta * s1).
Proof.
  intros Hwf Hk Htr.
  destruct (update2_cells g_max alpha beta T T_duration dt ST0 pre0 pre2syn
              t0 Hwf) as (ST1 & Hrun1 & Hs1 & Ht1 & Hcells1).
  exists ST1. split; [exact Hrun1|].
  intros pre1 t1 Hsp Hntr.
  assert (update_wf ST1 pre1 pre2syn) as Hwf1.
  { destruct Hwf as (_ & Hp2s & Hids). unfold update_wf.
    rewrite Hs1, Ht1, Hsp. auto. }
  destruct (update2_cells g_max alpha beta T T_duration dt ST1 pre1 pre2syn
              t1 Hwf1) as (ST2 & Hrun2 & _ & _ & Hcells2).
  exists ST2. split; [exact Hrun2|].
  intros s1 TT.
  assert (k < length (GABAa.s ST1))%nat as Hk1 by (rewrite Hs1; exact Hk).
  destruct (Hcells2 k Hk1) as [Ht2 ->].
  destruct (Hcells1 k Hk) as [Ht10 _].
  apply reached_triggered in Htr. rewrite Htr in Ht10.
  assert (reached pre2syn (GABAa.spiking pre1) k = false) as Hr.
  { destruct (reached pre2syn (GABAa.spiking pre1) k) eqn:Hr;
      [|reflexivity].
    apply reached_triggered in Hr. contradiction. }
  rewrite Hr in Ht2. rewrite Ht2, Ht10. fold s1.
  unfold GABAa.int_s2, Integrators.euler, GABAa.transmitter, TT, Rltb,
    of_bool.
  destruct (Rlt_dec (t1 - t0) T_duration); ring.
Qed.

Lemma gaba_sample_triggered :
  triggered Sample.gaba_pre Sample.gaba_pre2syn 0.
Proof.
  exists 0%nat. cbn. repeat split; [lia | lra | left; reflexivity].
Defined.

Lemma GABAa2_transmitter_window_witness :
  exists ST1,
    GABAa.update2 0.04 0.53 0.18 1 1 0.1 Sample.gaba_ST Sample.gaba_pre
      Sample.gaba_pre2syn 5 = Ok ST1.
Proof.
  assert (update_wf Sample.gaba_ST Sample.gaba_pre Sample.gaba_pre2syn)
    as Hwf.
  { unfold update_wf. cbn. repeat split; auto; repeat constructor. }
  assert (0 < length (GABAa.s Sample.gaba_ST))%nat as Hk by (cbn; lia).
  destruct (GABAa2_transmitter_window 0.04 0.53 0.18 1 1 0.1 Sample.gaba_ST
              Sample.gaba_pre Sample.gaba_pre2syn 5 0 Hwf Hk
              gaba_sample_triggered) as (ST1 & Hrun & _).
  exists ST1. exact Hrun.
Defined.

Lemma AdQuaIF_spike_bookkeeping_witness :
  AdQuaIF.t_last_spike
    (AdQuaIF.update 1 0.1 0.07 (-50) (-65) (-68) (-30) 1 10 10 5 0
       Sample.euler_V Sample.euler_w Sample.adquaif_driven 0) = 0.
Proof.
  destruct (AdQuaIF_spike_bookkeeping 1 0.1 0.07 (-50) (-65) (-68) (-30) 1
              10 10 5 0 Sample.euler_V Sample.euler_w Sample.adquaif_driven 0)
    as [(_ & _ & _ & _ & Ht & _)|(H0 & _)].
  - exact Ht.
  - rewrite adquaif_driven_spikes in H0. lra.
Defined.

(** * The delay line inside the updates *)



